(** * Word aggregation and prefix trie: a shallow embedding

    The development follows the three Python modules of the repository:
    [trie.py] (the [TrieNode] class and its [insert] method),
    [validate_words.py] ([load_trie], [load_words_to_validate],
    [is_in_trie]) and [compile_all_english_words.py] (the source loaders
    and the [main] pipeline that unions the sources, removes the omitted
    words, writes the sorted word list, builds the trie and pickles it).

    Conventions.
    - A Python [str] is a [string]; a character is an [ascii], read as one
      of the first 256 Unicode code points (Latin-1).
    - A Python [dict] keyed by characters is a [gmap ascii _]; a Python
      [set] of words is a [gset string].
    - A method that mutates its receiver is a function returning the
      updated receiver.
    - A function that may raise or call [sys.exit] returns an [outcome].
    - A text file is the list of lines its iterator yields, a binary file
      a list of bytes; a path that is not a regular file is [None]. *)

From Stdlib Require Import Ascii String.
From Stdlib.Strings Require Import Byte.
From stdpp Require Import gmap strings list fin_maps sorting.

Set Default Proof Using "Type".
Local Set Warnings "-register-all".
Local Open Scope string_scope.
Local Open Scope list_scope.

(** ** trie.py *)

(** [class TrieNode]: [children] maps a single character to a child node,
    [is_word] tells whether the path from the root to this node spells a
    word. *)
Inductive TrieNode : Type :=
  Node { children : gmap ascii TrieNode; is_word : bool }.

(** [TrieNode.__init__]: no children, [is_word = False]. *)
Definition TrieNode_new : TrieNode := Node ∅ false.

(** [TrieNode.insert(self, word)].  The loop walks down from [self], creating
    a fresh node where [ch not in node.children], and sets [is_word] on the
    node reached after the last character.  The mutation happens in place;
    here the updated node is returned. *)
Fixpoint insert (node : TrieNode) (word : string) : TrieNode :=
  match word with
  | EmptyString => Node (children node) true
  | String ch rest =>
      let child :=
        match children node !! ch with
        | Some c => c
        | None => TrieNode_new
        end in
      Node (<[ch := insert child rest]> (children node)) (is_word node)
  end.

(** The loop of [main] that fills the trie:
    [root = TrieNode(); for w in total_union: root.insert(w)].
    [words] is the order in which the set is iterated. *)
Definition build_trie (words : list string) : TrieNode :=
  foldl insert TrieNode_new words.

(** ** validate_words.py: objects and membership *)

(** What [pickle.load] may hand to the validator: an object that may or may
    not have a [children] attribute (a dict of such objects) and may or may
    not have an [is_word] attribute.  [hasattr] is [is_Some] on the
    field. *)
Inductive PyObject : Type :=
  PyObj { py_children : option (gmap ascii PyObject);
          py_is_word : option bool }.

(** A [TrieNode] instance seen as an object: both attributes are present,
    at every node. *)
Fixpoint to_py (t : TrieNode) : PyObject :=
  PyObj (Some (to_py <$> children t)) (Some (is_word t)).

(** [is_in_trie(root, word)]:
    - [if not hasattr(node, "children"): return False]
    - [if ch not in node.children: return False]
    - [node = node.children[ch]]
    and after the loop [getattr(node, "is_word", False)]. *)
Fixpoint is_in_trie (node : PyObject) (word : string) : bool :=
  match word with
  | EmptyString => default false (py_is_word node)
  | String ch rest =>
      match py_children node with
      | None => false
      | Some kids =>
          match kids !! ch with
          | None => false
          | Some child => is_in_trie child rest
          end
      end
  end.

(** ** Auxiliary notions used in the statements *)

(** The node reached from [t] along [path], if every edge exists. *)
Fixpoint node_at (t : TrieNode) (path : string) : option TrieNode :=
  match path with
  | EmptyString => Some t
  | String ch rest =>
      match children t !! ch with
      | None => None
      | Some child => node_at child rest
      end
  end.

(** ** Outcomes of fallible code *)

(** How a call can end other than by returning: an exception that nothing
    catches, or [sys.exit(status)]. *)
Inductive failure : Type :=
  | Raised (e : string)
  | SysExit (status : nat).

Inductive outcome (A : Type) : Type :=
  | Return (a : A)
  | Abort (f : failure).
Arguments Return {A} a.
Arguments Abort {A} f.

Definition outcome_bind {A B : Type} (k : A → outcome B) (m : outcome A) : outcome B :=
  match m with
  | Return a => k a
  | Abort f => Abort f
  end.

#[global] Instance outcome_mbind : MBind outcome := @outcome_bind.
#[global] Instance outcome_mret : MRet outcome := @Return.

Definition is_failure {A : Type} (m : outcome A) : Prop :=
  ∃ f, m = Abort f.

(** ** Python string primitives, on Latin-1 code points *)

(** [str.isspace] of one character, which is also what [str.strip()] and
    the regular expression [\s] test: TAB..CR, FS..US, space, NEL, NBSP. *)
Definition isspace (c : ascii) : bool :=
  let n := N_of_ascii c in
  ((9 <=? n) && (n <=? 13) || (28 <=? n) && (n <=? 32) ||
   (n =? 133) || (n =? 160))%N.

(** [str.isalpha] of one character: the letters of Latin-1 (general
    category L), that is A-Z, a-z, U+00AA, U+00B5, U+00BA, U+00C0..U+00FF
    without the two signs U+00D7 and U+00F7. *)
Definition isalpha_char (c : ascii) : bool :=
  let n := N_of_ascii c in
  ((65 <=? n) && (n <=? 90) || (97 <=? n) && (n <=? 122) ||
   (n =? 170) || (n =? 181) || (n =? 186) ||
   (192 <=? n) && negb (n =? 215) && negb (n =? 247))%N.

(** [str.lower] of one character: A-Z and U+00C0..U+00DE (without U+00D7)
    move up by 32, everything else stays. *)
Definition lower_char (c : ascii) : ascii :=
  let n := N_of_ascii c in
  if ((65 <=? n) && (n <=? 90) ||
      (192 <=? n) && (n <=? 222) && negb (n =? 215))%N
  then ascii_of_N (n + 32)
  else c.

Fixpoint lower (s : string) : string :=
  match s with
  | EmptyString => EmptyString
  | String c rest => String (lower_char c) (lower rest)
  end.

Fixpoint str_all (p : ascii → bool) (s : string) : bool :=
  match s with
  | EmptyString => true
  | String c rest => p c && str_all p rest
  end.

(** The truth value of a string: [False] exactly for the empty one. *)
Definition nonempty (s : string) : bool :=
  match s with
  | EmptyString => false
  | String _ _ => true
  end.

(** [s.isalpha()]: at least one character, and all of them letters. *)
Definition isalpha (s : string) : bool := nonempty s && str_all isalpha_char s.

Fixpoint lstrip_by (p : ascii → bool) (s : string) : string :=
  match s with
  | EmptyString => EmptyString
  | String c rest => if p c then lstrip_by p rest else s
  end.

Fixpoint rstrip_by (p : ascii → bool) (s : string) : string :=
  match s with
  | EmptyString => EmptyString
  | String c rest =>
      match rstrip_by p rest with
      | EmptyString => if p c then EmptyString else String c EmptyString
      | rest' => String c rest'
      end
  end.

(** [s.strip()] *)
Definition strip (s : string) : string := lstrip_by isspace (rstrip_by isspace s).

Definition is_newline (c : ascii) : bool :=
  (N_of_ascii c =? 10)%N || (N_of_ascii c =? 13)%N.

(** [s.rstrip("\n\r")], the same as [s.rstrip("\r\n")] *)
Definition rstrip_newlines (s : string) : string := rstrip_by is_newline s.

(** ** compile_all_english_words.py: utilities *)

Definition is_az (c : ascii) : bool :=
  let n := N_of_ascii c in ((97 <=? n) && (n <=? 122))%N.

(** [is_pure_alpha(word)]: [bool(re.fullmatch(r"[a-z]+", word))]. *)
Definition is_pure_alpha (word : string) : bool :=
  nonempty word && str_all is_az word.

(** ** validate_words.py: reading the tokens *)

(** The warning printed for a rejected line:
    [Warning: skipping invalid word '{original}' on line {lineno}]. *)
Inductive validate_warning : Type :=
  SkipInvalidWord (original : string) (lineno : nat).

(** The loop of [load_words_to_validate] over [enumerate(f, start=lineno)]:
    the accepted words in order, and the warnings in order. *)
Fixpoint read_words (lineno : nat) (lines : list string)
    : list string * list validate_warning :=
  match lines with
  | [] => ([], [])
  | line :: rest =>
      let original := rstrip_newlines line in
      let w := lower (strip original) in
      let '(words, warnings) := read_words (S lineno) rest in
      if negb (nonempty w) then (words, warnings)
      else if negb (isalpha w) then
        (words, SkipInvalidWord original lineno :: warnings)
      else (w :: words, warnings)
  end.

(** [load_words_to_validate(validate_path)]; [file] is [None] when
    [os.path.isfile(validate_path)] is false. *)
Definition load_words_to_validate (file : option (list string))
    : outcome (list string * list validate_warning) :=
  match file with
  | None => Abort (SysExit 1)
  | Some lines => Return (read_words 1 lines)
  end.

(** Step 3 of the validator's [main]: [results[w] = is_in_trie(trie_root, w)]
    for each word in turn. *)
Definition check_words (trie_root : PyObject) (words : list string)
    : gmap string bool :=
  foldl (λ results w, <[w := is_in_trie trie_root w]> results) ∅ words.

(** ** compile_all_english_words.py: the local loaders *)

Definition linux_dict_path : string := "/usr/share/dict/words".

(** The reading loop shared by [load_linux_dict_words] and
    [load_omit_words]: keep [line.strip().lower()] when it is non-empty and
    pure a-z. *)
Definition read_pure_alpha (lines : list string) : gset string :=
  list_to_set (filter (λ w, is_pure_alpha w = true)
                      ((λ line, lower (strip line)) <$> lines)).

(** [load_linux_dict_words()]: an empty set when the file is missing or has
    no valid entry, never an error. *)
Definition load_linux_dict_words (fs : string → option (list string))
    : gset string :=
  match fs linux_dict_path with
  | None => ∅
  | Some lines =>
      let words := read_pure_alpha lines in
      if decide (words = ∅) then ∅ else words
  end.

Fixpoint prefix_nocase (pat s : string) : bool :=
  match pat with
  | EmptyString => true
  | String p pat' =>
      match s with
      | EmptyString => false
      | String c s' =>
          bool_decide (lower_char c = lower_char p) && prefix_nocase pat' s'
      end
  end.

(** [section_header_pattern.match(ln)] for the pattern
    [^\s*2\.\s+Hyphenated Words] with [re.IGNORECASE]: optional white
    space, [2.], at least one white space, then the two words in any
    case.  Neither [2] nor [H] is white space, so the greedy runs of [\s]
    end in one way only. *)
Definition section_header_match (ln : string) : bool :=
  match lstrip_by isspace ln with
  | String "2" (String "." (String c rest)) =>
      isspace c && prefix_nocase "Hyphenated Words" (lstrip_by isspace rest)
  | _ => false
  end.

(** The loop of [load_moby_words]: skip up to the line that starts the
    first section, then collect words until a blank line or the header of
    the second section. *)
Fixpoint moby_read (start_reading : bool) (lines : list string)
    (words : gset string) : gset string :=
  match lines with
  | [] => words
  | line :: rest =>
      let ln := rstrip_newlines line in
      if negb start_reading then
        moby_read (String.prefix "1. Standard English Words" (strip ln))
                  rest words
      else if negb (nonempty (strip ln)) then words
      else if section_header_match ln then words
      else
        let w := lower (strip ln) in
        moby_read true rest
                  (if nonempty w && is_pure_alpha w then {[w]} ∪ words
                   else words)
  end.

(** [load_moby_words(moby_file)]: nothing when no file is given, an error
    when the file given does not exist or yields no word. *)
Definition load_moby_words (fs : string → option (list string))
    (moby_file : option string) : outcome (gset string) :=
  match moby_file with
  | None | Some EmptyString => Return ∅
  | Some path =>
      match fs path with
      | None => Abort (Raised ("Moby loader error: file not found: " +:+ path))
      | Some lines =>
          let words := moby_read false lines ∅ in
          if decide (words = ∅) then
            Abort (Raised "Moby loader error: no valid words found in '1. Standard English Words' section")
          else Return words
      end
  end.

(** [load_omit_words(omit_path)]: [sys.exit(1)] on [FileNotFoundError]. *)
Definition load_omit_words (fs : string → option (list string))
    (omit_path : string) : outcome (gset string) :=
  match fs omit_path with
  | None => Abort (SysExit 1)
  | Some lines => Return (read_pure_alpha lines)
  end.

(** ** compile_all_english_words.py: the loaders that raise *)

(** What these four loaders take from outside the program (git, the
    network, the tar archive, NLTK, wordfreq) is an argument of the model:
    an exception raised there is given by its text. *)

Fixpoint ends_with_sep (a : string) : bool :=
  match a with
  | EmptyString => false
  | String c EmptyString => bool_decide (c = "/"%char)
  | String _ rest => ends_with_sep rest
  end.

(** [os.path.join(a, b)] on POSIX, for a relative [b]. *)
Definition path_join (a b : string) : string :=
  if negb (nonempty a) || ends_with_sep a then a +:+ b
  else a +:+ "/" +:+ b.

Fixpoint has_sep (p : string) : bool :=
  match p with
  | EmptyString => false
  | String c rest => bool_decide (c = "/"%char) || has_sep rest
  end.

(** [os.path.basename(p)] on POSIX: what follows the last ["/"]. *)
Fixpoint basename (p : string) : string :=
  match p with
  | EmptyString => EmptyString
  | String c rest => if has_sep p then basename rest else p
  end.

(** The reading loop of [load_dwyl_words]: [w = line.strip()], kept when
    [w and is_pure_alpha(w)]; the line is not put in lower case. *)
Definition dwyl_read (lines : list string) : gset string :=
  list_to_set (filter (λ w, is_pure_alpha w = true) (strip <$> lines)).

(** [load_dwyl_words(tempdir)].  [isdir] is [os.path.isdir] before the
    call, [git] the exception of [run_command] if it raises one, [files]
    the text files as [git] leaves them. *)
Definition load_dwyl_words (tempdir : string) (isdir : string → bool)
    (git : option string) (files : string → option (list string))
    : outcome (gset string) :=
  let dwyl_dir := path_join tempdir "english-words" in
  match git with
  | Some e =>
      if negb (isdir dwyl_dir)
      then Abort (Raised ("DWYL loader error: could not clone repo: " +:+ e))
      else Abort (Raised ("DWYL loader error: could not pull repo: " +:+ e))
  | None =>
      let alpha_path := path_join dwyl_dir "words_alpha.txt" in
      match files alpha_path with
      | None =>
          Abort (Raised ("DWYL loader error: expected file not found: " +:+ alpha_path))
      | Some lines =>
          let words := dwyl_read lines in
          if decide (words = ∅) then
            Abort (Raised "DWYL loader error: no valid words found in words_alpha.txt")
          else Return words
      end
  end.

(** An open tar archive, as far as [load_scowl_words] looks at it: the
    names of [tar.getmembers()] in order, and for a name the lines of
    [tar.extractfile(name)], each already through
    [raw.decode("utf-8", "ignore")].  Members are regular files. *)
Record TarFile : Type := {
  getmembers : list string;
  extractfile : string → list string
}.

(** The filter of the extraction: [line = raw.decode(...).strip()],
    [w = line.lower()], and [w] is written when [is_pure_alpha(w)]. *)
Definition scowl_extract (content : list string) : list string :=
  filter (λ w, is_pure_alpha w = true) ((λ raw, lower (strip raw)) <$> content).

(** The last part of [load_scowl_words]: every non-empty [line.strip()] of
    the extracted file, with no other test. *)
Definition scowl_read (lines : list string) : outcome (gset string) :=
  let words : gset string :=
    list_to_set (filter (λ w, w ≠ EmptyString) (strip <$> lines)) in
  if decide (words = ∅) then
    Abort (Raised "SCOWL loader error: failed to load any words from extracted file")
  else Return words.

(** [load_scowl_words(tempdir)].  [tarball_present] and [extracted_txt]
    are the two [os.path.isfile] tests (with the lines of the extracted
    file when it is there), [urlretrieve] the exception of the download
    if it raises one, [tar] the archive or the [tarfile.TarError] raised
    on it.  A [RuntimeError] raised inside the [try] is caught by its
    [except] clause and raised again with the prefix a second time.  The
    lines written by the extraction, [w + "\n"] for pure a-z [w], are the
    lines read back. *)
Definition load_scowl_words (tarball_present : bool)
    (urlretrieve : option string) (tar : string + TarFile)
    (extracted_txt : option (list string)) : outcome (gset string) :=
  match (if tarball_present then None else urlretrieve) with
  | Some e => Abort (Raised ("SCOWL download error: " +:+ e))
  | None =>
      match tar with
      | inl e => Abort (Raised ("SCOWL extraction error: " +:+ e))
      | inr tar =>
          match List.find (λ name, bool_decide (basename name = "english-words.60"))
                          (getmembers tar) with
          | None =>
              Abort (Raised ("SCOWL extraction error: " +:+
                "SCOWL extraction error: 'english-words.60' not found inside tarball"))
          | Some target_member =>
              match extracted_txt with
              | Some lines => scowl_read lines
              | None =>
                  let written := scowl_extract (extractfile tar target_member) in
                  if decide (length written = 0%nat) then
                    Abort (Raised ("SCOWL extraction error: " +:+
                      "SCOWL extraction error: no valid words found in 'english-words.60'"))
                  else
                    scowl_read ((λ w, w +:+ String (ascii_of_nat 10) EmptyString)
                                  <$> written)
              end
          end
      end
  end.

(** How [wn.ensure_loaded()] ends: it returns, it raises [LookupError], or
    it raises something else. *)
Inductive ensure_loaded_result : Type :=
  | Loaded
  | LookupError
  | OtherError (e : string).

(** The two loops over lemma names and over the wordfreq list:
    [w = lemma.lower()], kept when [is_pure_alpha(w)]. *)
Definition lower_pure (names : list string) : gset string :=
  list_to_set (filter (λ w, is_pure_alpha w = true) (lower <$> names)).

(** [load_wordnet_words()].  Only [LookupError] is caught around the first
    [wn.ensure_loaded()]; [download] is the exception raised by
    [nltk.download] followed by the second [wn.ensure_loaded()], if any;
    [all_synsets] is the exception raised while iterating, or the lemma
    names of each synset. *)
Definition load_wordnet_words (ensure_loaded : ensure_loaded_result)
    (download : option string) (all_synsets : string + list (list string))
    : outcome (gset string) :=
  match (match ensure_loaded with
         | Loaded => None
         | LookupError =>
             match download with
             | Some e => Some ("WordNet download error: " +:+ e)
             | None => None
             end
         | OtherError e => Some e
         end) with
  | Some e => Abort (Raised e)
  | None =>
      match all_synsets with
      | inl e => Abort (Raised ("WordNet iteration error: " +:+ e))
      | inr synsets =>
          let lemmas := lower_pure (concat synsets) in
          if decide (lemmas = ∅) then
            Abort (Raised "WordNet loader error: no lemmas found")
          else Return lemmas
      end
  end.

(** [load_wordfreq_words()]; [iter_wordlist] is the exception raised while
    iterating [iter_wordlist("en")], or the words it yields. *)
Definition load_wordfreq_words (iter_wordlist : string + list string)
    : outcome (gset string) :=
  match iter_wordlist with
  | inl e => Abort (Raised ("wordfreq loader error: " +:+ e))
  | inr wordlist =>
      let words := lower_pure wordlist in
      if decide (words = ∅) then
        Abort (Raised "wordfreq loader error: no words retrieved")
      else Return words
  end.

(** ** compile_all_english_words.py: union, omission, word list *)

(** The loop [for s, name in [...]: total_union.update(s)], started from
    [total_union = set()]. *)
Definition union_sources (sources : list (gset string)) : gset string :=
  foldl (λ total_union s, total_union ∪ s) ∅ sources.

(** From "Union all sources" to "Remove omit-words" in [main]: the union,
    the [RuntimeError] when it is empty, then
    [if omit_set: total_union.difference_update(omit_set)]. *)
Definition aggregate (sources : list (gset string)) (omit_set : gset string)
    : outcome (gset string) :=
  let total_union := union_sources sources in
  if decide (total_union = ∅) then
    Abort (Raised "Final union is empty; no words were loaded from any source.")
  else if decide (omit_set = ∅) then Return total_union
  else Return (total_union ∖ omit_set).

(** The order of [sorted] on strings: code point by code point, a proper
    prefix first. *)
Definition str_le (s1 s2 : string) : Prop := String.leb s1 s2 = true.

#[global] Instance str_le_dec : RelDecision str_le.
Proof. intros s1 s2. unfold str_le. apply _. Defined.

(** [sorted(total_union)] *)
Definition sorted (words : gset string) : list string :=
  merge_sort str_le (elements words).

(** Step 8 of [main]: the lines written to the output file,
    [outf.write(w + "\n")] for each word of [sorted(total_union)]. *)
Definition write_word_list (total_union : gset string) : list string :=
  (λ w, w +:+ String (ascii_of_nat 10) EmptyString) <$> sorted total_union.

(** ** Pickling and unpickling *)

(** The structural markers compared by the writer: the stream starts with
    the byte 0x80 and ends with the byte ['.']. *)
Definition header_ok (data : list byte) : bool :=
  match take 2 data with
  | b :: _ => Byte.eqb b x80
  | [] => false
  end.

Definition trailer_ok (data : list byte) : bool :=
  match last data with
  | Some b => Byte.eqb b x2e
  | None => false
  end.

Definition markers_ok (data : list byte) : bool := header_ok data && trailer_ok data.

(** The warning of the writer:
    [Warning: Pickle header/trailer do not match expected values.] *)
Inductive pickle_warning : Type := MarkerMismatch.

(** Everything a successful run of the compile script leaves behind. *)
Record Artifacts : Type := {
  vocabulary : gset string;
  word_list : list string;
  trie : TrieNode;
  trie_pickle : list byte;
  warnings : list pickle_warning
}.

(** What the compile script reads from its environment. *)
Record Inputs : Type := {
  omit_file : option string;
  moby_file : option string;
  fs : string → option (list string);
  dwyl : outcome (gset string);
  scowl : outcome (gset string);
  wordnet : outcome (gset string);
  wordfreq : outcome (gset string)
}.

(** The start of [main]: [omit_set = set()], replaced by the words of the
    omit file [if args.omit_file]. *)
Definition main_omit_set (i : Inputs) : outcome (gset string) :=
  match omit_file i with
  | None | Some EmptyString => Return ∅
  | Some omit_path => load_omit_words (fs i) omit_path
  end.

(** The results of the four loaders that raise on every failure, in the
    order [main] calls them. *)
Definition required_sources (i : Inputs) : list (outcome (gset string)) :=
  [dwyl i; scowl i; wordnet i; wordfreq i].

Section pickle.
(** The [pickle] module is Python's, not the repository's: [pickle_dump]
    gives the bytes written for a trie ([None] when it raises), and
    [pickle_load] the object read back from a stream ([None] when it
    raises). *)
Variable pickle_dump : TrieNode → option (list byte).
Variable pickle_load : list byte → option PyObject.

(** [load_trie(trie_path)]: [sys.exit(1)] when the path is not a file, when
    unpickling raises (all three [except] clauses exit), and when the
    object lacks [children] or [is_word]. *)
Definition load_trie (file : option (list byte)) : outcome PyObject :=
  match file with
  | None => Abort (SysExit 1)
  | Some data =>
      match pickle_load data with
      | None => Abort (SysExit 1)
      | Some root =>
          if negb (bool_decide (is_Some (py_children root))) ||
             negb (bool_decide (is_Some (py_is_word root)))
          then Abort (SysExit 1)
          else Return root
      end
  end.

(** The validator's [main]: load the trie, read the tokens,
    [sys.exit(1)] when no token is left, check each word. *)
Definition validate_main (trie_file : option (list byte))
    (validate_file : option (list string))
    : outcome (gmap string bool * list validate_warning) :=
  trie_root ← load_trie trie_file;
  '(words, skipped) ← load_words_to_validate validate_file;
  match words with
  | [] => Abort (SysExit 1)
  | _ => Return (check_words trie_root words, skipped)
  end.

(** "Serializing Trie" in [main]: dump, read back [header = f.read(2)] and
    the last byte, and warn when they are not the expected ones.  Any
    exception in the block ends in [sys.exit(1)]; [f.seek(-1, os.SEEK_END)]
    raises on an empty file. *)
Definition pickle_trie (root : TrieNode)
    : outcome (list byte * list pickle_warning) :=
  match pickle_dump root with
  | None => Abort (SysExit 1)
  | Some data =>
      match last data with
      | None => Abort (SysExit 1)
      | Some _ =>
          if negb (header_ok data) || negb (trailer_ok data)
          then Return (data, [MarkerMismatch])
          else Return (data, [])
      end
  end.

(** [main] once every source is loaded: union and omission, the word
    list, the trie, the pickle. *)
Definition main_build (sources : list (gset string)) (omit_set : gset string)
    : outcome Artifacts :=
  total_union ← aggregate sources omit_set;
  let root := build_trie (elements total_union) in
  '(data, warned) ← pickle_trie root;
  Return {| vocabulary := total_union;
            word_list := write_word_list total_union;
            trie := root;
            trie_pickle := data;
            warnings := warned |}.

(** [main]: the omit file first, then the six loaders in order inside
    [try: ... finally:], which lets every exception through. *)
Definition main (i : Inputs) : outcome Artifacts :=
  omit_set ← main_omit_set i;
  dwyl_set ← dwyl i;
  scowl_set ← scowl i;
  wordnet_set ← wordnet i;
  wordfreq_set ← wordfreq i;
  let linux_set := load_linux_dict_words (fs i) in
  moby_set ← load_moby_words (fs i) (moby_file i);
  main_build [dwyl_set; scowl_set; wordnet_set; wordfreq_set; linux_set; moby_set]
             omit_set.
End pickle.

(** ** The serialized trie artifact *)

(** Modelled from the spec: the byte encoding of a trie, which the source
    leaves to Python's [pickle] module (not part of the repository).  The
    spec asks for a fixed magic byte first, a fixed terminator byte last,
    and in between, for every node, its word flag and its (letter, child)
    edges.  A node is its flag byte, then for each edge the byte 1, the
    letter and the child, then the byte 0. *)
Fixpoint encode_node (t : TrieNode) : list byte :=
  (if is_word t then x01 else x00) ::
  map_fold (λ ch child acc, x01 :: byte_of_ascii ch :: encode_node child ++ acc)
           [x00] (children t).

(** The edges of a node encoded one after the other, as [encode_node]
    lays them out. *)
Definition encode_edges (edges : list (ascii * TrieNode)) : list byte :=
  foldr (λ '(ch, child) acc, x01 :: byte_of_ascii ch :: encode_node child ++ acc)
        [x00] edges.

(** Modelled from the spec: [serialize(root)], the missing encoder, with
    the magic byte 0x80 and the terminator ['.'] that the writer in [main]
    looks for. *)
Definition serialize (root : TrieNode) : list byte :=
  x80 :: encode_node root ++ [x2e].

(** Modelled from the spec: the missing decoder of one node, the inverse
    of [encode_node]; it returns the node and the bytes left over.  [fuel]
    bounds the number of nested calls. *)
Fixpoint decode_node (fuel : nat) (data : list byte)
    : option (TrieNode * list byte) :=
  match fuel with
  | 0 => None
  | S fuel' =>
      match data with
      | [] => None
      | flag :: rest =>
          if Byte.eqb flag x00 || Byte.eqb flag x01 then
            '(kids, rest') ← decode_edges fuel' rest;
            Some (Node kids (Byte.eqb flag x01), rest')
          else None
      end
  end
with decode_edges (fuel : nat) (data : list byte)
    : option (gmap ascii TrieNode * list byte) :=
  match fuel with
  | 0 => None
  | S fuel' =>
      match data with
      | [] => None
      | tag :: rest =>
          if Byte.eqb tag x00 then Some (∅, rest)
          else if Byte.eqb tag x01 then
            match rest with
            | [] => None
            | letter :: rest1 =>
                '(child, rest2) ← decode_node fuel' rest1;
                '(kids, rest3) ← decode_edges fuel' rest2;
                Some (<[ascii_of_byte letter := child]> kids, rest3)
            end
          else None
      end
  end.

(** Modelled from the spec: [deserialize(stream)], the missing reader; a
    stream whose magic or terminator byte is not the expected one, or that
    does not parse in full, is corrupt. *)
Definition deserialize (data : list byte) : option TrieNode :=
  match data with
  | [] => None
  | magic :: rest =>
      if Byte.eqb magic x80 then
        match decode_node (length rest) rest with
        | Some (root, [terminator]) =>
            if Byte.eqb terminator x2e then Some root else None
        | _ => None
        end
      else None
  end.

(** The encoder and the reader in the shape [main] and [load_trie] call
    them. *)
Definition model_dump (root : TrieNode) : option (list byte) :=
  Some (serialize root).

Definition model_load (data : list byte) : option PyObject :=
  to_py <$> deserialize data.

(** A reader in the manner of [pickle.load]: it stops after the terminator
    of the first object and does not look at the bytes that follow. *)
Definition load_first_object (data : list byte) : option PyObject :=
  match data with
  | [] => None
  | magic :: rest =>
      if Byte.eqb magic x80 then
        match decode_node (length rest) rest with
        | Some (root, terminator :: _) =>
            if Byte.eqb terminator x2e then Some (to_py root) else None
        | _ => None
        end
      else None
  end.

(** ** Proof automation *)

(** Case analysis on the 256 values of a character. *)
Ltac ascii_cases c :=
  destruct c as [[] [] [] [] [] [] [] []]; vm_compute; try congruence.

(** ** Properties of the trie *)

Section trie_facts.
Implicit Types (t : TrieNode) (w v : string) (ch : ascii).

(** On a [TrieNode] the two [hasattr] guards never fire: the query is the
    flag of the node at the end of the path, and [False] without one. *)
Lemma is_in_trie_node_at t w :
  is_in_trie (to_py t) w =
  match node_at t w with Some n => is_word n | None => false end.
Proof.
  revert t. induction w as [|ch w IH]; intros [kids flag]; simpl; [done|].
  rewrite lookup_fmap. destruct (kids !! ch) as [child|]; simpl; [|done].
  apply IH.
Qed.

Lemma node_at_new w : w ≠ "" → node_at TrieNode_new w = None.
Proof. destruct w; [done|]. intros _. simpl. by rewrite lookup_empty. Qed.

Lemma is_in_trie_new w : is_in_trie (to_py TrieNode_new) w = false.
Proof.
  rewrite is_in_trie_node_at. destruct w; [done|].
  by rewrite node_at_new.
Qed.

(** After [insert], the node at the end of [w] exists and is flagged. *)
Lemma node_at_insert_same t w :
  ∃ n, node_at (insert t w) w = Some n ∧ is_word n = true ∧
       children n = match node_at t w with
                    | Some n0 => children n0
                    | None => ∅
                    end.
Proof.
  revert t. induction w as [|ch w IH]; intros t; simpl.
  - by eexists.
  - rewrite lookup_insert_eq.
    destruct (children t !! ch) as [child|]; [apply IH|].
    destruct (IH TrieNode_new) as (n & Hn & Hflag & Hkids).
    exists n. split_and!; [done..|].
    rewrite Hkids. destruct w; [done|]. by rewrite node_at_new.
Qed.

Lemma is_in_trie_insert_same t w : is_in_trie (to_py (insert t w)) w = true.
Proof.
  rewrite is_in_trie_node_at.
  by destruct (node_at_insert_same t w) as (n & -> & -> & _).
Qed.

(** Off the path of [w] nothing moves: the whole subtree is the same. *)
Lemma node_at_insert_off_path t w p :
  String.prefix p w = false → node_at (insert t w) p = node_at t p.
Proof.
  revert t w. induction p as [|ch p IH]; intros t w Hp.
  - by destruct w.
  - destruct w as [|ch' w]; simpl in *; [done|].
    destruct (Ascii.ascii_dec ch ch') as [->|Hne].
    + rewrite lookup_insert_eq.
      destruct (children t !! ch') as [child|]; [by apply IH|].
      rewrite IH by done. destruct p; [by destruct w|].
      by rewrite node_at_new.
    + by rewrite lookup_insert_ne.
Qed.

(** On the path, strictly above the end of [w], a node keeps its flag; a
    node that is created there is not flagged. *)
Lemma node_at_insert_on_path t w p :
  String.prefix p w = true → p ≠ w →
  ∃ n, node_at (insert t w) p = Some n ∧
       is_word n = match node_at t p with
                   | Some n0 => is_word n0
                   | None => false
                   end.
Proof.
  revert t w. induction p as [|ch p IH]; intros t w Hp Hne.
  - destruct w as [|ch' w]; [done|]. simpl. by eexists.
  - destruct w as [|ch' w]; simpl in *; [done|].
    destruct (Ascii.ascii_dec ch ch') as [->|?]; [|done].
    rewrite lookup_insert_eq.
    assert (p ≠ w) by congruence.
    destruct (children t !! ch') as [child|]; [by apply IH|].
    destruct (IH TrieNode_new w) as (n & Hn & Hflag); [done..|].
    exists n. split; [done|]. rewrite Hflag.
    destruct p; [done|]. by rewrite node_at_new.
Qed.

Lemma is_in_trie_insert_other t w v :
  v ≠ w → is_in_trie (to_py (insert t w)) v = is_in_trie (to_py t) v.
Proof.
  intros Hne. rewrite !is_in_trie_node_at.
  destruct (String.prefix v w) eqn:Hp.
  - by destruct (node_at_insert_on_path t w v) as (n & -> & ->).
  - by rewrite node_at_insert_off_path.
Qed.

Lemma insert_insert t w : insert (insert t w) w = insert t w.
Proof.
  revert t. induction w as [|ch w IH]; intros t; simpl; [done|].
  rewrite lookup_insert_eq, insert_insert_eq. by rewrite IH.
Qed.

Lemma is_in_trie_foldl_insert t ws w :
  is_in_trie (to_py (foldl insert t ws)) w =
  is_in_trie (to_py t) w || bool_decide (w ∈ ws).
Proof.
  revert t. induction ws as [|v ws IH]; intros t; simpl.
  - by rewrite orb_false_r.
  - rewrite IH. destruct (decide (w = v)) as [->|Hne].
    + rewrite is_in_trie_insert_same.
      rewrite (bool_decide_eq_true_2 (v ∈ v :: ws)) by left.
      by rewrite orb_true_r.
    + rewrite is_in_trie_insert_other by done. f_equal.
      apply bool_decide_ext. rewrite elem_of_cons.
    split; [by right|]. by intros [?|?].
Qed.

Lemma is_in_trie_build_trie ws w :
  is_in_trie (to_py (build_trie ws)) w = bool_decide (w ∈ ws).
Proof.
  unfold build_trie. by rewrite is_in_trie_foldl_insert, is_in_trie_new.
Qed.

(** C1.  A trie filled with the words of a vocabulary [V], each inserted
    once and in any order, answers the membership query with [True]
    exactly for the members of [V]; a string that is only a prefix of
    members, and no member itself, is answered with [False]. *)
Theorem build_trie_membership (V : gset string) (ws : list string) (w : string) :
  ws ≡ₚ elements V →
  (is_in_trie (to_py (build_trie ws)) w = true ↔ w ∈ V) ∧
  (∀ v, v ∈ V → String.prefix w v = true → w ∉ V →
        is_in_trie (to_py (build_trie ws)) w = false).
Proof.
  intros Hperm.
  assert (Hiff : is_in_trie (to_py (build_trie ws)) w = true ↔ w ∈ V).
  { rewrite is_in_trie_build_trie, bool_decide_eq_true.
    by rewrite Hperm, elem_of_elements. }
  split; [done|].
  intros v _ _ Hnot. apply not_true_is_false. by rewrite Hiff.
Qed.

Lemma build_trie_membership_witness :
  elements ({["cat"; "dog"]} : gset string) ≡ₚ elements ({["cat"; "dog"]} : gset string) ∧
  (is_in_trie (to_py (build_trie (elements ({["cat"; "dog"]} : gset string)))) "ca" = true
   ↔ "ca" ∈ ({["cat"; "dog"]} : gset string)).
Proof.
  split; [reflexivity|].
  apply (build_trie_membership {["cat"; "dog"]} (elements {["cat"; "dog"]}) "ca").
  reflexivity.
Defined.

(** C7.  Inserting a word a second time changes nothing: the tree is the
    same node for node, so no query tells the two apart.  [insert] is a
    total function, so it has a result for every word. *)
Theorem insert_idempotent (t : TrieNode) (w : string) :
  insert (insert t w) w = insert t w ∧
  ∀ q, is_in_trie (to_py (insert (insert t w) w)) q =
       is_in_trie (to_py (insert t w)) q.
Proof. split; [apply insert_insert|]. intros q. by rewrite insert_insert. Qed.

(** C8.  The membership query is a total function to [bool]: its answer
    is the word flag of the node at the end of the path and [False] when
    the path breaks off, for an object without [children] or without the
    next character among them as well; for the empty string it is the word
    flag of the root, which is [False] in a trie built from non-empty
    words. *)
Theorem is_in_trie_robust (t : TrieNode) (ws : list string) (w : string) :
  "" ∉ ws →
  is_in_trie (to_py t) w =
    match node_at t w with Some n => is_word n | None => false end ∧
  (∀ (o : PyObject) ch rest,
     py_children o = None ∨
     (∃ kids, py_children o = Some kids ∧ kids !! ch = None) →
     is_in_trie o (String ch rest) = false) ∧
  is_in_trie (to_py t) "" = is_word t ∧
  is_in_trie (to_py (build_trie ws)) "" = false.
Proof.
  intros Hws. split_and!.
  - apply is_in_trie_node_at.
  - intros o ch rest [Hnone|(kids & Hkids & Hch)]; simpl.
    + by rewrite Hnone.
    + by rewrite Hkids, Hch.
  - by destruct t.
  - rewrite is_in_trie_build_trie. by apply bool_decide_eq_false_2.
Qed.

Lemma is_in_trie_robust_witness :
  ("" ∉ ["cat"; "dog"]) ∧
  is_in_trie (to_py (build_trie ["cat"; "dog"])) "" = false.
Proof.
  assert (Hne : "" ∉ ["cat"; "dog"]).
  { intros H. apply elem_of_cons in H as [H|H]; [discriminate|].
    apply elem_of_cons in H as [H|H]; [discriminate|].
    by apply elem_of_nil in H. }
  split; [exact Hne|].
  apply (is_in_trie_robust TrieNode_new ["cat"; "dog"] "x1" Hne).
Defined.

(** C10.  Inserting [w] changes the answer for no other string.  Node by
    node: off the path of [w] every node, with its whole subtree, is what
    it was; a node that was there keeps its word flag unless it ends [w];
    and the node that ends [w] is flagged and keeps its children. *)
Theorem insert_frame (t : TrieNode) (w v : string) :
  v ≠ w →
  is_in_trie (to_py (insert t w)) v = is_in_trie (to_py t) v ∧
  (String.prefix v w = false → node_at (insert t w) v = node_at t v) ∧
  (∀ n, node_at t v = Some n →
        ∃ n', node_at (insert t w) v = Some n' ∧ is_word n' = is_word n) ∧
  (∃ n, node_at (insert t w) w = Some n ∧ is_word n = true ∧
        children n = match node_at t w with
                     | Some n0 => children n0
                     | None => ∅
                     end).
Proof.
  intros Hne. split_and!.
  - by apply is_in_trie_insert_other.
  - apply node_at_insert_off_path.
  - intros n Hn. destruct (String.prefix v w) eqn:Hp.
    + destruct (node_at_insert_on_path t w v) as (n' & Hn' & Hflag); [done..|].
      exists n'. by rewrite Hflag, Hn.
    + exists n. by rewrite node_at_insert_off_path.
  - apply node_at_insert_same.
Qed.

Lemma insert_frame_witness :
  "ca" ≠ "car" ∧
  is_in_trie (to_py (insert (build_trie ["cat"]) "car")) "ca" =
  is_in_trie (to_py (build_trie ["cat"])) "ca".
Proof.
  split; [discriminate|].
  apply (insert_frame (build_trie ["cat"]) "car" "ca"). discriminate.
Defined.

End trie_facts.

(** ** Properties of the aggregation *)

Section aggregation_facts.
Implicit Types (sources : list (gset string)) (omit_set V : gset string).

Lemma foldl_union_sources sources (acc : gset string) :
  foldl (λ total_union s, total_union ∪ s) acc sources = acc ∪ ⋃ sources.
Proof.
  revert acc. induction sources as [|s sources IH]; intros acc; simpl.
  - by rewrite (right_id_L ∅ (∪)).
  - by rewrite IH, (assoc_L (∪)).
Qed.

Lemma union_sources_union_list sources : union_sources sources = ⋃ sources.
Proof.
  unfold union_sources. by rewrite foldl_union_sources, (left_id_L ∅ (∪)).
Qed.

Lemma aggregate_nonempty sources omit_set :
  ⋃ sources ≠ ∅ → aggregate sources omit_set = Return (⋃ sources ∖ omit_set).
Proof.
  intros Hne. unfold aggregate. rewrite union_sources_union_list.
  rewrite decide_False by done.
  destruct (decide (omit_set = ∅)) as [->|]; [|done].
  by rewrite difference_empty_L.
Qed.

Lemma aggregate_empty sources omit_set :
  ⋃ sources = ∅ →
  aggregate sources omit_set =
  Abort (Raised "Final union is empty; no words were loaded from any source.").
Proof.
  intros Hempty. unfold aggregate. rewrite union_sources_union_list.
  by rewrite decide_True.
Qed.

(** The order of [sorted] is a total preorder. *)
Lemma string_compare_refl (s : string) : String.compare s s = Eq.
Proof.
  induction s as [|c s IH]; simpl; [done|].
  unfold Ascii.compare. by rewrite N.compare_refl.
Qed.

Lemma string_compare_trans_le (s1 s2 s3 : string) :
  String.compare s1 s2 ≠ Gt → String.compare s2 s3 ≠ Gt →
  String.compare s1 s3 ≠ Gt.
Proof.
  revert s2 s3. induction s1 as [|c1 s1 IH]; intros [|c2 s2] [|c3 s3];
    simpl; try done.
  unfold Ascii.compare.
  destruct (N.compare_spec (N_of_ascii c1) (N_of_ascii c2)) as [H12|H12|H12];
    destruct (N.compare_spec (N_of_ascii c2) (N_of_ascii c3)) as [H23|H23|H23];
    try done.
  - rewrite H12, H23, N.compare_refl. apply IH.
  - intros _ _. rewrite H12. by rewrite (proj2 (N.compare_lt_iff _ _) H23).
  - intros _ _. rewrite <- H23. by rewrite (proj2 (N.compare_lt_iff _ _) H12).
  - intros _ _.
    by rewrite (proj2 (N.compare_lt_iff _ _) (N.lt_trans _ _ _ H12 H23)).
Qed.

Lemma str_le_compare (s1 s2 : string) : str_le s1 s2 ↔ String.compare s1 s2 ≠ Gt.
Proof. unfold str_le, String.leb. by destruct (String.compare s1 s2). Qed.

#[local] Instance str_le_trans : Transitive str_le.
Proof.
  intros s1 s2 s3. rewrite !str_le_compare. apply string_compare_trans_le.
Qed.

#[local] Instance str_le_total : Total str_le.
Proof. intros s1 s2. apply String.leb_total. Qed.

#[local] Instance str_le_antisymm : AntiSymm (=) str_le.
Proof. intros s1 s2. apply String.leb_antisym. Qed.

Lemma sorted_spec V :
  StronglySorted str_le (sorted V) ∧ NoDup (sorted V) ∧
  ∀ w, w ∈ sorted V ↔ w ∈ V.
Proof.
  unfold sorted. split_and!.
  - apply (StronglySorted_merge_sort str_le); apply _.
  - rewrite merge_sort_Permutation. apply NoDup_elements.
  - intros w. by rewrite merge_sort_Permutation, elem_of_elements.
Qed.

(** C3.  When the union of the sources is not empty, the aggregation
    returns exactly that union without the omitted words, and the word list
    written from it has one line per word, each word once, in the order of
    the code points. *)
Theorem aggregate_union_correct sources omit_set :
  ⋃ sources ≠ ∅ →
  aggregate sources omit_set = Return (⋃ sources ∖ omit_set) ∧
  (∀ w, w ∈ ⋃ sources ∖ omit_set ↔
        (∃ s, s ∈ sources ∧ w ∈ s) ∧ w ∉ omit_set) ∧
  ∃ ws, write_word_list (⋃ sources ∖ omit_set) =
          (λ w, w +:+ String (ascii_of_nat 10) EmptyString) <$> ws ∧
        StronglySorted str_le ws ∧ NoDup ws ∧
        ∀ w, w ∈ ws ↔ w ∈ ⋃ sources ∖ omit_set.
Proof.
  intros Hne. split_and!.
  - by apply aggregate_nonempty.
  - intros w. by rewrite elem_of_difference, elem_of_union_list.
  - exists (sorted (⋃ sources ∖ omit_set)). split; [done|]. apply sorted_spec.
Qed.

Lemma aggregate_union_correct_witness :
  ⋃ [({["dog"; "cat"]} : gset string); {["cat"; "fish"]}] ≠ ∅ ∧
  aggregate [{["dog"; "cat"]}; {["cat"; "fish"]}] {["fish"]} =
    Return (⋃ [{["dog"; "cat"]}; {["cat"; "fish"]}] ∖ {["fish"]}).
Proof.
  assert (Hne : ⋃ [({["dog"; "cat"]} : gset string); {["cat"; "fish"]}] ≠ ∅).
  { intros H. assert (Hin : "dog" ∈ (∅ : gset string)); [|set_solver].
    rewrite <- H. set_solver. }
  split; [exact Hne|].
  apply (aggregate_union_correct [{["dog"; "cat"]}; {["cat"; "fish"]}]
           {["fish"]} Hne).
Defined.

(** The scenario of the specification: two sources, one omitted word. *)
Example aggregate_scenario :
  aggregate [{["dog"; "cat"]}; {["cat"; "fish"]}] {["fish"]} =
    Return {["cat"; "dog"]} ∧
  write_word_list {["cat"; "dog"]} =
    ["cat" +:+ String (ascii_of_nat 10) ""; "dog" +:+ String (ascii_of_nat 10) ""].
Proof. split; vm_compute; reflexivity. Qed.

End aggregation_facts.

(** ** The empty-vocabulary check *)

(** The check for an empty vocabulary sits before the omission: a union
    that the omit set empties afterwards goes through, the word list is
    empty and the trie is a bare root. *)
Lemma omitted_vocabulary_is_not_fatal :
  ⋃ [({["cat"]} : gset string)] ∖ {["cat"]} = ∅ ∧
  aggregate [{["cat"]}] {["cat"]} = Return ∅ ∧
  main_build model_dump [{["cat"]}] {["cat"]} =
    Return {| vocabulary := ∅;
              word_list := [];
              trie := TrieNode_new;
              trie_pickle := [x80; x00; x00; x2e];
              warnings := [] |}.
Proof. split_and!; vm_compute; reflexivity. Qed.

(** C4, as the code has it.  The aggregation fails exactly when the union
    of the sources is empty, whatever the omit set; the error then ends
    [main] before the word list, the trie and the pickle. *)
Theorem empty_union_is_fatal (pickle_dump : TrieNode → option (list byte))
    (sources : list (gset string)) (omit_set : gset string) :
  (is_failure (aggregate sources omit_set) ↔ ⋃ sources = ∅) ∧
  (⋃ sources = ∅ →
   main_build pickle_dump sources omit_set =
   Abort (Raised "Final union is empty; no words were loaded from any source.")).
Proof.
  split; [split|].
  - intros [f Hf]. destruct (decide (⋃ sources = ∅)) as [|Hne]; [done|].
    by rewrite aggregate_nonempty in Hf.
  - intros Hempty. eexists. by apply aggregate_empty.
  - intros Hempty. unfold main_build. by rewrite aggregate_empty.
Qed.

Lemma empty_union_is_fatal_witness :
  ⋃ [(∅ : gset string); ∅] = ∅ ∧
  main_build model_dump [∅; ∅] {["cat"]} =
  Abort (Raised "Final union is empty; no words were loaded from any source.").
Proof.
  assert (Hempty : ⋃ [(∅ : gset string); ∅] = ∅) by (vm_compute; reflexivity).
  split; [exact Hempty|].
  apply (empty_union_is_fatal model_dump [∅; ∅] {["cat"]}). exact Hempty.
Defined.

(** ** The tokens given to the validator *)

(** C5, at a token with a letter outside a-z.  Of the four lines [Cat],
    [xyz123], [caf] followed by U+00E9 (e with acute accent, code 233), and
    [dog], the second is skipped
    with a warning, and the third, which is not pure a-z, is kept and looked
    up in the trie like the others. *)
Theorem load_words_keeps_non_az_letters :
  load_words_to_validate
    (Some ["Cat" +:+ String (ascii_of_nat 10) "";
           "xyz123" +:+ String (ascii_of_nat 10) "";
           "caf" +:+ String "233" (String (ascii_of_nat 10) "");
           "dog"]) =
    Return (["cat"; "caf" +:+ String "233" ""; "dog"],
            [SkipInvalidWord "xyz123" 2]) ∧
  is_pure_alpha ("caf" +:+ String "233" "") = false ∧
  check_words (to_py (build_trie ["cat"; "dog"]))
              ["cat"; "caf" +:+ String "233" ""; "dog"]
    !! ("caf" +:+ String "233" "") = Some false.
Proof. split_and!; vm_compute; reflexivity. Qed.

(** ** Failures of the source loaders *)

Section loader_facts.
Variable pickle_dump : TrieNode → option (list byte).
Implicit Types (i : Inputs) (f : failure).

(** When every loader returns, [main] goes on with the six sets; the local
    dictionary is a set in every case. *)
Lemma main_all_loaded i omit_set d s wn wf m :
  main_omit_set i = Return omit_set →
  dwyl i = Return d → scowl i = Return s →
  wordnet i = Return wn → wordfreq i = Return wf →
  load_moby_words (fs i) (moby_file i) = Return m →
  main pickle_dump i =
  main_build pickle_dump [d; s; wn; wf; load_linux_dict_words (fs i); m] omit_set.
Proof.
  intros Ho Hd Hs Hwn Hwf Hm. unfold main.
  by rewrite Ho, Hd, Hs, Hwn, Hwf, Hm.
Qed.

(** The first failure among the four required loaders is the end of
    [main]. *)
Lemma main_required_failure i omit_set f :
  main_omit_set i = Return omit_set →
  Abort f ∈ required_sources i →
  ∃ f', Abort f' ∈ required_sources i ∧ main pickle_dump i = Abort f'.
Proof.
  intros Ho Hin. unfold main, required_sources in *. rewrite Ho. simpl.
  destruct (dwyl i) as [d|fd] eqn:Hd.
  2:{ exists fd. split; [left|done]. }
  destruct (scowl i) as [s|fs'] eqn:Hs.
  2:{ exists fs'. split; [right; left|done]. }
  destruct (wordnet i) as [wn|fwn] eqn:Hwn.
  2:{ exists fwn. split; [do 2 right; left|done]. }
  destruct (wordfreq i) as [wf|fwf] eqn:Hwf.
  2:{ exists fwf. split; [do 3 right; left|done]. }
  exfalso. repeat (apply elem_of_cons in Hin as [Hin|Hin]; [done|]).
  by apply elem_of_nil in Hin.
Qed.

Lemma load_linux_dict_words_empty (files : string → option (list string)) :
  files linux_dict_path = None ∨
  (∃ lines, files linux_dict_path = Some lines ∧ read_pure_alpha lines = ∅) →
  load_linux_dict_words files = ∅.
Proof.
  unfold load_linux_dict_words. intros [->|(lines & -> & Hnone)]; [done|].
  by rewrite decide_True.
Qed.

Lemma load_moby_words_failure (files : string → option (list string)) path :
  path ≠ "" →
  files path = None ∨
  (∃ lines, files path = Some lines ∧ moby_read false lines ∅ = ∅) →
  ∃ e, load_moby_words files (Some path) = Abort (Raised e).
Proof.
  intros Hpath Hbad. unfold load_moby_words.
  destruct path as [|c path]; [done|].
  destruct Hbad as [->|(lines & -> & Hnone)]; [by eexists|].
  rewrite decide_True by done. by eexists.
Qed.

(** C9.  Once the omit file is read: a failure of one of the four required
    loaders ends [main] with the failure of such a loader; a local
    dictionary that is missing or has no valid entry gives the empty set,
    and [main] goes on with it; the Moby loader gives the empty set when no
    file is named, and raises, which ends [main], when the file named is
    missing or yields no word. *)
Theorem source_failure_policy i omit_set :
  main_omit_set i = Return omit_set →
  (∀ f, Abort f ∈ required_sources i →
        ∃ f', Abort f' ∈ required_sources i ∧ main pickle_dump i = Abort f') ∧
  (fs i linux_dict_path = None ∨
   (∃ lines, fs i linux_dict_path = Some lines ∧ read_pure_alpha lines = ∅) →
   load_linux_dict_words (fs i) = ∅) ∧
  (∀ d s wn wf m,
     required_sources i = [Return d; Return s; Return wn; Return wf] →
     load_moby_words (fs i) (moby_file i) = Return m →
     main pickle_dump i =
     main_build pickle_dump [d; s; wn; wf; load_linux_dict_words (fs i); m]
                omit_set) ∧
  (moby_file i = None → load_moby_words (fs i) (moby_file i) = Return ∅) ∧
  (∀ path, moby_file i = Some path → path ≠ "" →
     fs i path = None ∨
     (∃ lines, fs i path = Some lines ∧ moby_read false lines ∅ = ∅) →
     ∃ e, load_moby_words (fs i) (moby_file i) = Abort (Raised e) ∧
          (∀ d s wn wf,
             required_sources i = [Return d; Return s; Return wn; Return wf] →
             main pickle_dump i = Abort (Raised e))).
Proof.
  intros Ho. split_and!.
  - intros f. by apply (main_required_failure i omit_set).
  - apply load_linux_dict_words_empty.
  - intros d s wn wf m Hreq Hm. unfold required_sources in Hreq.
    injection Hreq as Hd Hs Hwn Hwf. by apply main_all_loaded.
  - by intros ->.
  - intros path Hfile Hpath Hbad. rewrite Hfile.
    destruct (load_moby_words_failure (fs i) path Hpath Hbad) as [e He].
    exists e. split; [done|].
    intros d s wn wf Hreq. unfold required_sources in Hreq.
    injection Hreq as Hd Hs Hwn Hwf. unfold main.
    by rewrite Ho, Hd, Hs, Hwn, Hwf, Hfile, He.
Qed.

End loader_facts.

Lemma source_failure_policy_witness :
  main_omit_set
    {| omit_file := None; moby_file := Some "moby.txt"; fs := λ _, None;
       dwyl := Return {["cat"]};
       scowl := Abort (Raised "SCOWL download error: unreachable");
       wordnet := Return {["dog"]}; wordfreq := Return {["fish"]} |} = Return ∅ ∧
  ∃ f', main model_dump
    {| omit_file := None; moby_file := Some "moby.txt"; fs := λ _, None;
       dwyl := Return {["cat"]};
       scowl := Abort (Raised "SCOWL download error: unreachable");
       wordnet := Return {["dog"]}; wordfreq := Return {["fish"]} |} = Abort f'.
Proof.
  split; [reflexivity|].
  destruct (source_failure_policy model_dump
    {| omit_file := None; moby_file := Some "moby.txt"; fs := λ _, None;
       dwyl := Return {["cat"]};
       scowl := Abort (Raised "SCOWL download error: unreachable");
       wordnet := Return {["dog"]}; wordfreq := Return {["fish"]} |}
    ∅ eq_refl) as (Hreq & _).
  destruct (Hreq (Raised "SCOWL download error: unreachable")) as (f' & _ & Hmain).
  - unfold required_sources. simpl. right. left.
  - exists f'. exact Hmain.
Defined.

(** The Moby loader on a small file: the words between the header of the
    first section and the header of the second. *)
Example load_moby_words_scenario :
  load_moby_words
    (λ path, if decide (path = "moby.txt") then
               Some ["Title"; "  1. Standard English Words"; "Apple";
                     "co-op"; "zebra"; " 2.  hyphenated words"; "later"]
             else None)
    (Some "moby.txt") = Return {["apple"; "zebra"]}.
Proof. vm_compute. reflexivity. Qed.

(** ** The round trip through the serialized artifact *)

Section codec_facts.
Implicit Types (t root : TrieNode) (data rest : list byte).

Lemma encode_node_edges t :
  encode_node t =
  (if is_word t then x01 else x00) :: encode_edges (map_to_list (children t)).
Proof.
  destruct t as [kids flag]. simpl. f_equal.
  rewrite map_fold_foldr. unfold encode_edges.
  apply foldr_ext; [|done..]. by intros [ch child] acc.
Qed.

Lemma decode_node_step fuel flag rest :
  decode_node (S fuel) (flag :: rest) =
  if Byte.eqb flag x00 || Byte.eqb flag x01 then
    '(kids, rest') ← decode_edges fuel rest;
    Some (Node kids (Byte.eqb flag x01), rest')
  else None.
Proof. done. Qed.

Lemma decode_edges_step fuel letter rest :
  decode_edges (S fuel) (x01 :: letter :: rest) =
  '(child, rest2) ← decode_node fuel rest;
  '(kids, rest3) ← decode_edges fuel rest2;
  Some (<[ascii_of_byte letter := child]> kids, rest3).
Proof. done. Qed.

(** With fuel for every byte, the decoder undoes the encoder and leaves
    the bytes that follow untouched. *)
Lemma decode_encode (fuel : nat) :
  (∀ t rest, (length (encode_node t) ≤ fuel)%nat →
     decode_node fuel (encode_node t ++ rest) = Some (t, rest)) ∧
  (∀ edges rest, (length (encode_edges edges) ≤ fuel)%nat →
     decode_edges fuel (encode_edges edges ++ rest) =
     Some (list_to_map edges, rest)).
Proof.
  induction fuel as [|fuel [IHnode IHedges]].
  - split.
    + intros t rest. rewrite encode_node_edges. simpl. lia.
    + intros [|[ch child] edges] rest; simpl; lia.
  - split.
    + intros t rest Hlen. rewrite encode_node_edges in *. simpl in Hlen.
      rewrite <- app_comm_cons, decode_node_step.
      rewrite IHedges by lia. rewrite list_to_map_to_list.
      by destruct t as [kids [|]].
    + intros [|[ch child] edges] rest Hlen; [done|].
      change (encode_edges ((ch, child) :: edges))
        with (x01 :: byte_of_ascii ch :: encode_node child ++ encode_edges edges)
        in *.
      simpl in Hlen. rewrite length_app in Hlen.
      rewrite <- !app_comm_cons, <- (assoc_L (++)), decode_edges_step.
      rewrite IHnode by lia. simpl. rewrite IHedges by lia.
      simpl. by rewrite ascii_of_byte_of_ascii.
Qed.

Lemma deserialize_serialize root : deserialize (serialize root) = Some root.
Proof.
  unfold deserialize, serialize.
  change (Byte.eqb x80 x80) with true. cbv iota.
  destruct (decode_encode (length (encode_node root ++ [x2e]))) as [Hnode _].
  rewrite Hnode by (rewrite length_app; lia). done.
Qed.

Lemma markers_ok_serialize root : markers_ok (serialize root) = true.
Proof.
  unfold markers_ok, trailer_ok, serialize.
  rewrite app_comm_cons, last_snoc. done.
Qed.

Lemma to_py_attributes t :
  is_Some (py_children (to_py t)) ∧ is_Some (py_is_word (to_py t)).
Proof. destruct t. split; by eexists. Qed.

Lemma pickle_trie_model root :
  pickle_trie model_dump root = Return (serialize root, []).
Proof.
  unfold pickle_trie, model_dump.
  pose proof (markers_ok_serialize root) as Hok.
  unfold markers_ok in Hok. apply andb_true_iff in Hok as [Hh Ht].
  rewrite Hh, Ht.
  unfold trailer_ok in Ht. by destruct (last (serialize root)).
Qed.

Lemma load_trie_model root :
  load_trie model_load (Some (serialize root)) = Return (to_py root).
Proof.
  unfold load_trie, model_load. rewrite deserialize_serialize. simpl.
  by destruct root.
Qed.

(** C2.  Writing a trie and loading it again gives back the same trie:
    every node has the same children and the same word flag, so every
    query has the same answer; for the trie of a vocabulary [V] the answer
    is membership in [V]. *)
Theorem serialize_roundtrip (root : TrieNode) (V : gset string) (w : string) :
  deserialize (serialize root) = Some root ∧
  pickle_trie model_dump root = Return (serialize root, []) ∧
  ∃ loaded,
    load_trie model_load (Some (serialize root)) = Return loaded ∧
    loaded = to_py root ∧
    is_in_trie loaded w = is_in_trie (to_py root) w ∧
    (root = build_trie (elements V) → is_in_trie loaded w = true ↔ w ∈ V).
Proof.
  split_and!; [apply deserialize_serialize|apply pickle_trie_model|].
  exists (to_py root). split_and!; [apply load_trie_model|done..|].
  intros ->. rewrite is_in_trie_build_trie, bool_decide_eq_true.
  apply elem_of_elements.
Qed.

Lemma serialize_roundtrip_witness :
  ∃ loaded,
    load_trie model_load
      (Some (serialize (build_trie (elements ({["cat"; "dog"]} : gset string))))) =
      Return loaded ∧
    (is_in_trie loaded "ca" = true ↔ "ca" ∈ ({["cat"; "dog"]} : gset string)).
Proof.
  destruct (serialize_roundtrip
              (build_trie (elements ({["cat"; "dog"]} : gset string)))
              {["cat"; "dog"]} "ca") as (_ & _ & loaded & Hload & _ & _ & Hiff).
  exists loaded. split; [exact Hload|]. apply Hiff. reflexivity.
Defined.

End codec_facts.

(** ** Loading and the structural markers *)

(** [load_trie] compares no byte of the stream with a constant: what it
    rejects is up to the unpickler.  With a reader that stops at the end
    of the first object, a stream with a byte after the terminator, whose
    last byte is therefore not ['.'], is loaded. *)
Lemma load_trie_accepts_marker_mismatch :
  markers_ok (serialize (build_trie ["cat"]) ++ [x0a]) = false ∧
  load_trie load_first_object (Some (serialize (build_trie ["cat"]) ++ [x0a])) =
    Return (to_py (build_trie ["cat"])).
Proof. split; vm_compute; reflexivity. Qed.

Section loading_facts.
Variable pickle_dump : TrieNode → option (list byte).
Variable pickle_load : list byte → option PyObject.

Lemma load_trie_exits_iff (file : option (list byte)) :
  load_trie pickle_load file = Abort (SysExit 1) ↔
  file = None ∨
  ∃ data, file = Some data ∧
    (pickle_load data = None ∨
     ∃ o, pickle_load data = Some o ∧
          (py_children o = None ∨ py_is_word o = None)).
Proof.
  unfold load_trie. destruct file as [data|].
  2:{ split; [by left|done]. }
  destruct (pickle_load data) as [[[kids|] [flag|]]|] eqn:Hload; cbn.
  - split; [done|].
    intros [?|(data' & Hdata & [Hnone|(o & Ho & [Hattr|Hattr])])]; [done|..];
      injection Hdata as <-; rewrite Hload in *; [done|..];
      injection Ho as <-; done.
  - split; [|done]. intros _. right. exists data.
    split; [done|]. right. eexists. split; [done|]. by right.
  - split; [|done]. intros _. right. exists data.
    split; [done|]. right. eexists. split; [done|]. by left.
  - split; [|done]. intros _. right. exists data.
    split; [done|]. right. eexists. split; [done|]. by left.
  - split; [|done]. intros _. right. exists data. split; [done|]. by left.
Qed.

Lemma load_trie_returns (data : list byte) (o : PyObject) :
  pickle_load data = Some o →
  is_Some (py_children o) → is_Some (py_is_word o) →
  load_trie pickle_load (Some data) = Return o.
Proof.
  intros Hload [kids Hkids] [flag Hflag]. unfold load_trie. rewrite Hload.
  destruct o as [okids oflag]. simpl in *. by rewrite Hkids, Hflag.
Qed.

Lemma pickle_trie_warns (root : TrieNode) (data : list byte) :
  pickle_dump root = Some data → data ≠ [] →
  pickle_trie pickle_dump root =
  Return (data, if markers_ok data then [] else [MarkerMismatch]).
Proof.
  intros Hdump Hne. unfold pickle_trie. rewrite Hdump.
  destruct (last data) eqn:Hlast.
  - unfold markers_ok. by destruct (header_ok data), (trailer_ok data).
  - by apply last_None in Hlast.
Qed.

(** C6, as the code has it.  Loading ends in [sys.exit(1)] exactly when
    the path is not a file, when unpickling raises, or when the object read
    lacks [children] or [is_word]; any other object is returned, whatever
    the first and last bytes of the stream.  The writer, for its part, only
    warns when the markers of the stream it wrote are not the expected
    ones. *)
Theorem load_trie_failure_policy (file : option (list byte)) (root : TrieNode) :
  (load_trie pickle_load file = Abort (SysExit 1) ↔
   file = None ∨
   ∃ data, file = Some data ∧
     (pickle_load data = None ∨
      ∃ o, pickle_load data = Some o ∧
           (py_children o = None ∨ py_is_word o = None))) ∧
  (∀ data o, file = Some data → pickle_load data = Some o →
     is_Some (py_children o) → is_Some (py_is_word o) →
     load_trie pickle_load file = Return o) ∧
  (∀ data, pickle_dump root = Some data → data ≠ [] →
     pickle_trie pickle_dump root =
     Return (data, if markers_ok data then [] else [MarkerMismatch])).
Proof.
  split_and!.
  - apply load_trie_exits_iff.
  - intros data o ->. apply load_trie_returns.
  - apply pickle_trie_warns.
Qed.

End loading_facts.

Lemma load_trie_failure_policy_witness :
  load_trie model_load (Some [x00; x2e]) = Abort (SysExit 1) ∧
  pickle_trie (λ _, Some [x00; x2e]) TrieNode_new =
    Return ([x00; x2e], [MarkerMismatch]).
Proof.
  destruct (load_trie_failure_policy (λ _, Some [x00; x2e]) model_load
              (Some [x00; x2e]) TrieNode_new) as (Hexit & _ & Hwarn).
  split.
  - apply Hexit. right. exists [x00; x2e]. split; [reflexivity|].
    left. reflexivity.
  - apply (Hwarn [x00; x2e]); [reflexivity|discriminate].
Defined.

(** ** More on the trie: order of insertion, shape *)

Section trie_shape.
Implicit Types (t : TrieNode) (w v p : string) (ws : list string).

Lemma insert_comm t w v : insert (insert t w) v = insert (insert t v) w.
Proof.
  revert t v. induction w as [|a w IH]; intros [kids flag] [|b v]; simpl;
    [done..|].
  destruct (decide (a = b)) as [->|Hne].
  - rewrite !lookup_insert_eq, !insert_insert_eq. by rewrite IH.
  - rewrite !lookup_insert_ne by done.
    by rewrite (insert_insert_ne kids a b) by done.
Qed.

Lemma foldl_insert_permutation t ws1 ws2 :
  ws1 ≡ₚ ws2 → foldl insert t ws1 = foldl insert t ws2.
Proof.
  intros Hperm. revert t.
  induction Hperm as [|x l1 l2 _ IH|x y l|l1 l2 l3 _ IH1 _ IH2]; intros t;
    simpl.
  - done.
  - apply IH.
  - by rewrite insert_comm.
  - by rewrite IH1.
Qed.

(** X1.  The trie does not depend on the order in which the words are
    inserted, nor on a word being inserted more than once: two lists of
    words with the same elements build the same tree, node for node. *)
Theorem build_trie_order_irrelevant ws1 ws2 :
  (∀ w, w ∈ ws1 ↔ w ∈ ws2) → build_trie ws1 = build_trie ws2.
Proof.
  intros Hsame. unfold build_trie.
  assert (Hdedup : ∀ ws t, foldl insert t ws = foldl insert t (remove_dups ws)).
  { induction ws as [|w ws IH]; intros t; [done|]. simpl.
    destruct (decide_rel (∈) w ws) as [Hin|Hnotin].
    - rewrite <- IH. apply list_elem_of_split in Hin as (l1 & l2 & ->).
      rewrite !(foldl_insert_permutation _ (l1 ++ w :: l2) (w :: l1 ++ l2))
        by (symmetry; apply Permutation_middle).
      simpl. by rewrite insert_insert.
    - simpl. apply IH. }
  rewrite (Hdedup ws1), (Hdedup ws2).
  apply foldl_insert_permutation, NoDup_Permutation;
    [apply NoDup_remove_dups..|].
  intros w. rewrite !elem_of_remove_dups. apply Hsame.
Qed.

Lemma build_trie_order_irrelevant_witness :
  (∀ w, w ∈ ["dog"; "cat"; "dog"] ↔ w ∈ ["cat"; "dog"]) ∧
  build_trie ["dog"; "cat"; "dog"] = build_trie ["cat"; "dog"].
Proof.
  assert (H : ∀ w, w ∈ ["dog"; "cat"; "dog"] ↔ w ∈ ["cat"; "dog"]).
  { intros w. rewrite !elem_of_cons, !elem_of_nil. tauto. }
  split; [exact H|].
  apply (build_trie_order_irrelevant ["dog"; "cat"; "dog"] ["cat"; "dog"] H).
Defined.

Lemma string_prefix_refl w : String.prefix w w = true.
Proof.
  induction w as [|c w IH]; simpl; [done|].
  by destruct (ascii_dec c c).
Qed.

Lemma node_at_insert_is_Some t w p :
  is_Some (node_at (insert t w) p) ↔
  is_Some (node_at t p) ∨ String.prefix p w = true.
Proof.
  destruct (String.prefix p w) eqn:Hp.
  - split; [by right|]. intros _.
    destruct (decide (p = w)) as [->|Hne].
    + destruct (node_at_insert_same t w) as (n & -> & _). by eexists.
    + destruct (node_at_insert_on_path t w p) as (n & -> & _); [done..|].
      by eexists.
  - rewrite node_at_insert_off_path by done. split; [by left|].
    by intros [?|?].
Qed.

Lemma node_at_foldl_insert_is_Some t ws p :
  is_Some (node_at (foldl insert t ws) p) ↔
  is_Some (node_at t p) ∨ ∃ w, w ∈ ws ∧ String.prefix p w = true.
Proof.
  revert t. induction ws as [|v ws IH]; intros t; simpl.
  - split; [by left|]. intros [?|(w & Hw & _)]; [done|].
    by apply elem_of_nil in Hw.
  - rewrite IH, node_at_insert_is_Some. split.
    + intros [[?|?]|(w & Hw & Hp)]; [by left| |].
      * right. exists v. split; [left|done].
      * right. exists w. split; [by right|done].
    + intros [?|(w & Hw & Hp)]; [by left; left|].
      apply elem_of_cons in Hw as [->|Hw]; [by left; right|].
      right. by exists w.
Qed.

(** X2.  The nodes of a built trie are exactly the prefixes of the words
    inserted: below the root there is a node at the end of a path if and
    only if the path is a prefix of some word.  No other node is ever
    created, and none is missing. *)
Theorem build_trie_nodes_are_prefixes ws p :
  p ≠ "" →
  (is_Some (node_at (build_trie ws) p) ↔
   ∃ w, w ∈ ws ∧ String.prefix p w = true).
Proof.
  intros Hp. unfold build_trie. rewrite node_at_foldl_insert_is_Some.
  rewrite node_at_new by done. split; [|by right].
  intros [[? ?]|?]; done.
Qed.

Lemma build_trie_nodes_are_prefixes_witness :
  "ca" ≠ "" ∧
  (is_Some (node_at (build_trie ["cat"; "dog"]) "ca") ↔
   ∃ w, w ∈ ["cat"; "dog"] ∧ String.prefix "ca" w = true).
Proof.
  split; [discriminate|].
  apply (build_trie_nodes_are_prefixes ["cat"; "dog"] "ca"). discriminate.
Defined.

End trie_shape.

(** ** Facts on the string primitives *)

Lemma is_az_isalpha_char c : is_az c = true → isalpha_char c = true.
Proof. ascii_cases c. Qed.

Lemma is_az_lower_char c : is_az c = true → lower_char c = c.
Proof. ascii_cases c. Qed.

Lemma is_az_isspace c : is_az c = true → isspace c = false.
Proof. ascii_cases c. Qed.

Lemma is_newline_isspace c : is_newline c = true → isspace c = true.
Proof. ascii_cases c. Qed.

Lemma lower_char_idemp c : lower_char (lower_char c) = lower_char c.
Proof. ascii_cases c. Qed.

Lemma lower_idemp s : lower (lower s) = lower s.
Proof.
  induction s as [|c s IH]; simpl; [done|]. by rewrite lower_char_idemp, IH.
Qed.

Lemma nonempty_lower s : nonempty (lower s) = nonempty s.
Proof. by destruct s. Qed.

Lemma str_all_impl (p q : ascii → bool) s :
  (∀ c, p c = true → q c = true) → str_all p s = true → str_all q s = true.
Proof.
  intros Hpq. induction s as [|c s IH]; simpl; [done|].
  intros [Hc Hs]%andb_true_iff. by rewrite (Hpq c Hc), IH.
Qed.

Lemma rstrip_by_id p s :
  str_all (λ c, negb (p c)) s = true → rstrip_by p s = s.
Proof.
  induction s as [|c s IH]; simpl; [done|].
  intros [Hc Hs]%andb_true_iff. rewrite (IH Hs).
  destruct s; [|done]. by apply negb_true_iff in Hc as ->.
Qed.

Lemma lstrip_by_id p s :
  str_all (λ c, negb (p c)) s = true → lstrip_by p s = s.
Proof.
  destruct s as [|c s]; simpl; [done|].
  intros [Hc _]%andb_true_iff. by apply negb_true_iff in Hc as ->.
Qed.

Lemma rstrip_by_snoc p s c :
  p c = true → rstrip_by p (s +:+ String c "") = rstrip_by p s.
Proof.
  intros Hc. induction s as [|a s IH]; simpl.
  - by rewrite Hc.
  - by rewrite IH.
Qed.

Lemma rstrip_by_weaker (p q : ascii → bool) s :
  (∀ c, p c = true → q c = true) →
  rstrip_by q (rstrip_by p s) = rstrip_by q s.
Proof.
  intros Hpq. induction s as [|c s IH]; simpl; [done|].
  destruct (rstrip_by p s) as [|a r] eqn:Hr.
  - simpl in IH. rewrite <- IH.
    destruct (p c) eqn:Hc.
    + by rewrite (Hpq c Hc).
    + done.
  - change (rstrip_by q (String c (String a r))) with
      (match rstrip_by q (String a r) with
       | "" => if q c then "" else String c ""
       | String a' r' => String c (String a' r')
       end).
    by rewrite IH.
Qed.

Lemma strip_rstrip_newlines s : strip (rstrip_newlines s) = strip s.
Proof.
  unfold strip, rstrip_newlines.
  by rewrite (rstrip_by_weaker is_newline isspace) by apply is_newline_isspace.
Qed.

Lemma is_pure_alpha_nonempty w : is_pure_alpha w = true → w ≠ "".
Proof. by destruct w. Qed.

Lemma is_pure_alpha_isalpha w : is_pure_alpha w = true → isalpha w = true.
Proof.
  unfold is_pure_alpha, isalpha. intros [-> Hall]%andb_true_iff. simpl.
  apply (str_all_impl is_az); [apply is_az_isalpha_char|done].
Qed.

Lemma is_pure_alpha_lower w : is_pure_alpha w = true → lower w = w.
Proof.
  unfold is_pure_alpha. intros [_ Hall]%andb_true_iff.
  induction w as [|c w IH]; simpl in *; [done|].
  apply andb_true_iff in Hall as [Hc Hw].
  by rewrite (is_az_lower_char c Hc), IH.
Qed.

Lemma is_pure_alpha_no_space w :
  is_pure_alpha w = true → str_all (λ c, negb (isspace c)) w = true.
Proof.
  unfold is_pure_alpha. intros [_ Hall]%andb_true_iff.
  apply (str_all_impl is_az); [|done].
  intros c Hc. by rewrite (is_az_isspace c Hc).
Qed.

Lemma is_pure_alpha_strip w : is_pure_alpha w = true → strip w = w.
Proof.
  intros Hw%is_pure_alpha_no_space. unfold strip.
  by rewrite rstrip_by_id, lstrip_by_id.
Qed.

Lemma strip_line_pure w :
  is_pure_alpha w = true → strip (w +:+ String (ascii_of_nat 10) "") = w.
Proof.
  intros Hw. unfold strip. rewrite rstrip_by_snoc by done.
  by apply is_pure_alpha_strip.
Qed.

(** ** The validator: tokens, warnings, results *)

Section validator_facts.
Variable pickle_load : list byte → option PyObject.
Implicit Types (lines words : list string) (skipped : list validate_warning).
Implicit Types (w line original : string) (k n : nat).

Lemma read_words_cons k line lines :
  read_words k (line :: lines) =
  let w := lower (strip line) in
  let rest := read_words (S k) lines in
  if negb (nonempty w) then rest
  else if negb (isalpha w) then
    (rest.1, SkipInvalidWord (rstrip_newlines line) k :: rest.2)
  else (w :: rest.1, rest.2).
Proof.
  simpl. rewrite strip_rstrip_newlines.
  destruct (read_words (S k) lines) as [words skipped].
  by repeat case_match.
Qed.

Lemma read_words_elem_of k lines w :
  w ∈ (read_words k lines).1 ↔
  isalpha w = true ∧ ∃ line, line ∈ lines ∧ lower (strip line) = w.
Proof.
  revert k. induction lines as [|line lines IH]; intros k.
  - simpl. rewrite elem_of_nil. split; [done|].
    intros (_ & line & Hline & _). by apply elem_of_nil in Hline.
  - rewrite read_words_cons. cbv zeta.
    assert (Hcons : (isalpha w = true ∧
                     ∃ l, l ∈ line :: lines ∧ lower (strip l) = w) ↔
                    (isalpha w = true ∧ lower (strip line) = w) ∨
                    w ∈ (read_words (S k) lines).1).
    { rewrite IH. split.
      - intros (Hw & l & [->|Hl]%elem_of_cons & Heq); [by left|].
        right. split; [done|]. by exists l.
      - intros [[Hw Heq]|(Hw & l & Hl & Heq)].
        + split; [done|]. exists line. split; [left|done].
        + split; [done|]. exists l. split; [by right|done]. }
    rewrite Hcons. clear Hcons.
    destruct (nonempty (lower (strip line))) eqn:Hne; simpl.
    + destruct (isalpha (lower (strip line))) eqn:Halpha; simpl.
      * rewrite elem_of_cons. split.
        -- intros [->|?]; [by left|by right].
        -- intros [[_ <-]|?]; [by left|by right].
      * split; [by right|]. intros [[Hw <-]|?]; [congruence|done].
    + split; [by right|]. intros [[Hw <-]|?]; [|done].
      unfold isalpha in Hw. by rewrite Hne in Hw.
Qed.

Lemma read_words_lower k lines w : w ∈ (read_words k lines).1 → lower w = w.
Proof.
  intros (_ & line & _ & <-)%read_words_elem_of. apply lower_idemp.
Qed.

(** X3.  The words handed on by [load_words_to_validate] are exactly the
    tokens [line.strip().lower()] of the file that [str.isalpha] accepts;
    each of them is non-empty, made of letters only, and already in lower
    case. *)
Theorem load_words_to_validate_words file words skipped :
  load_words_to_validate file = Return (words, skipped) →
  ∃ lines, file = Some lines ∧
    (∀ w, w ∈ words ↔
          isalpha w = true ∧ ∃ line, line ∈ lines ∧ lower (strip line) = w) ∧
    (∀ w, w ∈ words → w ≠ "" ∧ lower w = w).
Proof.
  destruct file as [lines|]; simpl; [|done]. intros [= Hread].
  exists lines. split; [done|].
  assert (Hwords : words = (read_words 1 lines).1) by by rewrite Hread.
  subst words. split.
  - intros w. apply read_words_elem_of.
  - intros w Hw. split; [|by apply read_words_lower in Hw].
    apply read_words_elem_of in Hw as [Hw _]. by destruct w.
Qed.

Lemma load_words_to_validate_words_witness :
  ∃ lines, Some ["Cat" +:+ String (ascii_of_nat 10) ""; "xyz123"] = Some lines ∧
    (∀ w, w ∈ ["cat"] ↔
          isalpha w = true ∧ ∃ line, line ∈ lines ∧ lower (strip line) = w) ∧
    (∀ w, w ∈ ["cat"] → w ≠ "" ∧ lower w = w).
Proof.
  apply (load_words_to_validate_words
           (Some ["Cat" +:+ String (ascii_of_nat 10) ""; "xyz123"])
           ["cat"] [SkipInvalidWord "xyz123" 2]).
  reflexivity.
Defined.

Lemma read_words_skipped k lines original n :
  SkipInvalidWord original n ∈ (read_words k lines).2 →
  (k ≤ n < k + length lines)%nat ∧
  ∃ line, lines !! (n - k)%nat = Some line ∧
          original = rstrip_newlines line ∧
          strip original ≠ "" ∧ isalpha (lower (strip original)) = false.
Proof.
  revert k. induction lines as [|line lines IH]; intros k.
  - simpl. by intros ?%elem_of_nil.
  - rewrite read_words_cons. cbv zeta.
    assert (Hrest : SkipInvalidWord original n ∈ (read_words (S k) lines).2 →
      (k ≤ n < k + length (line :: lines))%nat ∧
      ∃ l, (line :: lines) !! (n - k)%nat = Some l ∧
           original = rstrip_newlines l ∧
           strip original ≠ "" ∧ isalpha (lower (strip original)) = false).
    { intros (Hn & l & Hl & Hrest)%IH. simpl. split; [lia|].
      exists l. split; [|done].
      by replace (n - k)%nat with (S (n - S k)) by lia. }
    destruct (nonempty (lower (strip line))) eqn:Hne; simpl; [|done].
    destruct (isalpha (lower (strip line))) eqn:Halpha; simpl; [done|].
    intros [[= -> ->]|?]%elem_of_cons; [|by apply Hrest].
    split; [lia|]. exists line. rewrite Nat.sub_diag.
    rewrite strip_rstrip_newlines. split_and!; [done..| |done].
    intros Hempty. by rewrite Hempty in Hne.
Qed.

(** X4.  Every warning of [load_words_to_validate] points at the right
    line: the number reported is the 1-based position of a line of the
    file, the text reported is that line without its line end, and the
    line holds a token that is not blank and that [str.isalpha]
    rejects. *)
Theorem load_words_to_validate_warnings lines words skipped original n :
  load_words_to_validate (Some lines) = Return (words, skipped) →
  SkipInvalidWord original n ∈ skipped →
  (1 ≤ n ≤ length lines)%nat ∧
  ∃ line, lines !! (n - 1)%nat = Some line ∧
          original = rstrip_newlines line ∧
          strip original ≠ "" ∧ isalpha (lower (strip original)) = false.
Proof.
  simpl. intros [= Hread] Hin.
  assert (Hskipped : skipped = (read_words 1 lines).2) by by rewrite Hread.
  subst skipped. apply read_words_skipped in Hin as (Hn & Hline).
  split; [lia|done].
Qed.

Lemma load_words_to_validate_warnings_witness :
  (1 ≤ 2 ≤ length ["Cat" +:+ String (ascii_of_nat 10) ""; "xyz123"])%nat ∧
  ∃ line,
    ["Cat" +:+ String (ascii_of_nat 10) ""; "xyz123"] !! (2 - 1)%nat = Some line ∧
    "xyz123" = rstrip_newlines line ∧
    strip "xyz123" ≠ "" ∧ isalpha (lower (strip "xyz123")) = false.
Proof.
  apply (load_words_to_validate_warnings
           ["Cat" +:+ String (ascii_of_nat 10) ""; "xyz123"]
           ["cat"] [SkipInvalidWord "xyz123" 2]).
  - reflexivity.
  - left.
Defined.

(** X5.  Every line of the file that is not blank gives exactly one word
    or one warning, and a blank line gives neither: the words and the
    warnings together are as many as the non-blank lines. *)
Theorem load_words_to_validate_accounting lines words skipped :
  load_words_to_validate (Some lines) = Return (words, skipped) →
  (length words + length skipped)%nat =
  length (filter (λ line, strip line ≠ "") lines).
Proof.
  simpl. intros [= Hread].
  replace words with (read_words 1 lines).1 by by rewrite Hread.
  replace skipped with (read_words 1 lines).2 by by rewrite Hread.
  clear Hread. generalize 1%nat.
  induction lines as [|line lines IH]; intros k; [done|].
  rewrite read_words_cons. cbv zeta. rewrite nonempty_lower.
  specialize (IH (S k)).
  destruct (strip line) as [|c s] eqn:Hstrip; simpl.
  - rewrite filter_cons_False by (rewrite Hstrip; naive_solver). done.
  - rewrite filter_cons_True by (by rewrite Hstrip).
    destruct (isalpha _); simpl; lia.
Qed.

Lemma load_words_to_validate_accounting_witness :
  (length ["cat"] + length [SkipInvalidWord "xyz123" 3])%nat =
  length (filter (λ line, strip line ≠ "") ["Cat"; "  "; "xyz123"]).
Proof.
  apply (load_words_to_validate_accounting ["Cat"; "  "; "xyz123"]
           ["cat"] [SkipInvalidWord "xyz123" 3]).
  reflexivity.
Defined.

Lemma foldl_check_words_lookup (root : PyObject) words (m : gmap string bool) w :
  foldl (λ results v, <[v := is_in_trie root v]> results) m words !! w =
  if decide (w ∈ words) then Some (is_in_trie root w) else m !! w.
Proof.
  revert m. induction words as [|v words IH]; intros m; simpl.
  - destruct (decide (w ∈ [])) as [Hin|_]; [by apply elem_of_nil in Hin|done].
  - rewrite IH. destruct (decide (w ∈ words)) as [Hin|Hnotin].
    + by rewrite decide_True by by right.
    + destruct (decide (w = v)) as [->|Hne].
      * rewrite decide_True by left. by rewrite lookup_insert_eq.
      * rewrite decide_False by (by intros [?|?]%elem_of_cons).
        by rewrite lookup_insert_ne.
Qed.

(** X6.  The results of the validator have one entry for each distinct
    word checked and no other entry, and the entry of a word is the
    answer of [is_in_trie] for it, however often and wherever the word
    occurs in the list. *)
Theorem check_words_lookup (root : PyObject) words w :
  check_words root words !! w =
  if decide (w ∈ words) then Some (is_in_trie root w) else None.
Proof.
  unfold check_words. rewrite foldl_check_words_lookup.
  by rewrite lookup_empty.
Qed.



(** X8.  End to end: when the trie file holds the trie built from the
    words [ws], the validator reports for every alphabetic token of its
    input whether the token is one of [ws], and reports nothing else. *)
Theorem validate_main_reports_membership ws data lines results skipped :
  pickle_load data = Some (to_py (build_trie ws)) →
  validate_main pickle_load (Some data) (Some lines) = Return (results, skipped) →
  ∀ w, (results !! w = Some (bool_decide (w ∈ ws)) ∧
        isalpha w = true ∧ ∃ line, line ∈ lines ∧ lower (strip line) = w) ∨
       (results !! w = None ∧
        ¬ (isalpha w = true ∧ ∃ line, line ∈ lines ∧ lower (strip line) = w)).
Proof.
  intros Hload.
  assert (Hroot : load_trie pickle_load (Some data) =
                  Return (to_py (build_trie ws))).
  { unfold load_trie. rewrite Hload. by destruct (build_trie ws). }
  unfold validate_main. rewrite Hroot. cbn.
  destruct (read_words 1 lines) as [words skipped'] eqn:Hread.
  destruct words as [|v words]; [done|]. intros [= <- <-] w.
  unfold check_words.
  rewrite foldl_check_words_lookup, lookup_empty, is_in_trie_build_trie.
  rewrite <- (read_words_elem_of 1 lines w), Hread. simpl.
  destruct (decide (w ∈ v :: words)); [by left|by right].
Qed.

End validator_facts.

Lemma validate_main_reports_membership_witness :
  (({["cat" := true; "xyz" := false]} : gmap string bool) !! "cat" =
     Some (bool_decide ("cat" ∈ ["cat"; "dog"])) ∧
   isalpha "cat" = true ∧
   ∃ line, line ∈ ["Cat"; "xyz"; "42"] ∧ lower (strip line) = "cat") ∨
  (({["cat" := true; "xyz" := false]} : gmap string bool) !! "cat" = None ∧
   ¬ (isalpha "cat" = true ∧
      ∃ line, line ∈ ["Cat"; "xyz"; "42"] ∧ lower (strip line) = "cat")).
Proof.
  apply (validate_main_reports_membership
           (λ _, Some (to_py (build_trie ["cat"; "dog"]))) ["cat"; "dog"]
           [] ["Cat"; "xyz"; "42"] _ [SkipInvalidWord "42" 3]).
  - reflexivity.
  - reflexivity.
Defined.

(** ** The loaders of the compile script *)

Section loader_postconditions.
Implicit Types (lines : list string) (words : gset string) (w line : string).

Lemma elem_of_filter_fmap_set (P : string → Prop) `{!∀ x, Decision (P x)}
    (f : string → string) lines w :
  w ∈ (list_to_set (filter P (f <$> lines)) : gset string) ↔
  P w ∧ ∃ line, line ∈ lines ∧ f line = w.
Proof.
  rewrite elem_of_list_to_set, list_elem_of_filter, list_elem_of_fmap.
  split.
  - intros (Hw & line & -> & Hline). split; [done|]. by exists line.
  - intros (Hw & line & Hline & <-). split; [done|]. by exists line.
Qed.

Lemma elem_of_concat (x : string) (ls : list (list string)) :
  x ∈ concat ls ↔ ∃ l, l ∈ ls ∧ x ∈ l.
Proof.
  rewrite list_elem_of_In, in_concat. split.
  - intros (l & Hl & Hx). exists l. by rewrite !list_elem_of_In.
  - intros (l & Hl & Hx). exists l. by rewrite <- !list_elem_of_In.
Qed.

Lemma read_pure_alpha_elem_of lines w :
  w ∈ read_pure_alpha lines ↔
  is_pure_alpha w = true ∧ ∃ line, line ∈ lines ∧ lower (strip line) = w.
Proof. apply elem_of_filter_fmap_set. Qed.

Lemma dwyl_read_elem_of lines w :
  w ∈ dwyl_read lines ↔
  is_pure_alpha w = true ∧ ∃ line, line ∈ lines ∧ strip line = w.
Proof. apply elem_of_filter_fmap_set. Qed.

Lemma lower_pure_elem_of names w :
  w ∈ lower_pure names ↔
  is_pure_alpha w = true ∧ ∃ name, name ∈ names ∧ lower name = w.
Proof. apply elem_of_filter_fmap_set. Qed.

(** X9.  When [load_dwyl_words] returns, git has not failed, the file
    [words_alpha.txt] of the clone is there, and the set returned is not
    empty and holds exactly the stripped lines of that file that are pure
    a-z; a line is not put in lower case, so a word with a capital letter
    is left out. *)
Theorem load_dwyl_words_returns tempdir isdir git files words :
  load_dwyl_words tempdir isdir git files = Return words →
  git = None ∧ words ≠ ∅ ∧
  ∃ lines,
    files (path_join (path_join tempdir "english-words") "words_alpha.txt")
      = Some lines ∧
    ∀ w, w ∈ words ↔
         is_pure_alpha w = true ∧ ∃ line, line ∈ lines ∧ strip line = w.
Proof.
  unfold load_dwyl_words. destruct git as [e|]; [by destruct (negb _)|].
  destruct (files _) as [lines|]; [|done].
  destruct (decide (dwyl_read lines = ∅)) as [|Hne]; [done|].
  intros [= <-]. split_and!; [done..|]. exists lines. split; [done|].
  intros w. apply dwyl_read_elem_of.
Qed.

Lemma load_dwyl_words_returns_witness :
  (None : option string) = None ∧ ({["cat"]} : gset string) ≠ ∅ ∧
  ∃ lines,
    (λ _, Some ["cat"; "Dog"])
      (path_join (path_join "/tmp/w" "english-words") "words_alpha.txt")
      = Some lines ∧
    ∀ w, w ∈ ({["cat"]} : gset string) ↔
         is_pure_alpha w = true ∧ ∃ line, line ∈ lines ∧ strip line = w.
Proof.
  apply (load_dwyl_words_returns "/tmp/w" (λ _, false) None
           (λ _, Some ["cat"; "Dog"]) {["cat"]}).
  reflexivity.
Defined.

(** X10.  When [load_wordnet_words] returns, the set returned is not empty
    and holds exactly the lemma names of the synsets, put in lower case,
    that are pure a-z. *)
Theorem load_wordnet_words_returns ensure_loaded download all_synsets words :
  load_wordnet_words ensure_loaded download all_synsets = Return words →
  words ≠ ∅ ∧
  ∃ synsets, all_synsets = inr synsets ∧
    ∀ w, w ∈ words ↔
         is_pure_alpha w = true ∧
         ∃ synset lemma, synset ∈ synsets ∧ lemma ∈ synset ∧ lower lemma = w.
Proof.
  unfold load_wordnet_words.
  destruct (match ensure_loaded with Loaded => _ | _ => _ end); [done|].
  destruct all_synsets as [e|synsets]; [done|].
  destruct (decide (lower_pure (concat synsets) = ∅)) as [|Hne]; [done|].
  intros [= <-]. split; [done|]. exists synsets. split; [done|].
  intros w. rewrite lower_pure_elem_of. split.
  - intros (Hw & lemma & (synset & ? & ?)%elem_of_concat & Heq).
    split; [done|]. by exists synset, lemma.
  - intros (Hw & synset & lemma & ? & ? & Heq). split; [done|].
    exists lemma. split; [|done]. apply elem_of_concat. by exists synset.
Qed.

Lemma load_wordnet_words_returns_witness :
  ({["cat"; "dog"]} : gset string) ≠ ∅ ∧
  ∃ synsets,
    (inr [["Cat"; "true_cat"]; ["dog"]] : string + list (list string))
      = inr synsets ∧
    ∀ w, w ∈ ({["cat"; "dog"]} : gset string) ↔
         is_pure_alpha w = true ∧
         ∃ synset lemma, synset ∈ synsets ∧ lemma ∈ synset ∧ lower lemma = w.
Proof.
  apply (load_wordnet_words_returns LookupError None
           (inr [["Cat"; "true_cat"]; ["dog"]]) {["cat"; "dog"]}).
  reflexivity.
Defined.

(** X11.  When [load_wordfreq_words] returns, the set returned is not
    empty and holds exactly the words of the wordfreq list, put in lower
    case, that are pure a-z. *)
Theorem load_wordfreq_words_returns iter_wordlist words :
  load_wordfreq_words iter_wordlist = Return words →
  words ≠ ∅ ∧
  ∃ wordlist, iter_wordlist = inr wordlist ∧
    ∀ w, w ∈ words ↔
         is_pure_alpha w = true ∧ ∃ v, v ∈ wordlist ∧ lower v = w.
Proof.
  unfold load_wordfreq_words. destruct iter_wordlist as [e|wordlist]; [done|].
  destruct (decide (lower_pure wordlist = ∅)) as [|Hne]; [done|].
  intros [= <-]. split; [done|]. exists wordlist. split; [done|].
  intros w. apply lower_pure_elem_of.
Qed.

Lemma load_wordfreq_words_returns_witness :
  ({["the"]} : gset string) ≠ ∅ ∧
  ∃ wordlist, (inr ["The"; "don't"] : string + list string) = inr wordlist ∧
    ∀ w, w ∈ ({["the"]} : gset string) ↔
         is_pure_alpha w = true ∧ ∃ v, v ∈ wordlist ∧ lower v = w.
Proof.
  apply (load_wordfreq_words_returns (inr ["The"; "don't"]) {["the"]}).
  reflexivity.
Defined.

End loader_postconditions.

Section scowl_facts.
Implicit Types (lines written : list string) (words : gset string).
Implicit Types (w line : string).

Lemma scowl_read_returns lines words :
  scowl_read lines = Return words →
  words ≠ ∅ ∧
  ∀ w, w ∈ words ↔ w ≠ "" ∧ ∃ line, line ∈ lines ∧ strip line = w.
Proof.
  unfold scowl_read. case_decide as Hne; [done|]. intros [= <-].
  split; [done|]. intros w. apply elem_of_filter_fmap_set.
Qed.

(** X12.  With no previously extracted file, [load_scowl_words] returns
    only if the archive opens and has a member whose base name is
    [english-words.60]; the set returned is then not empty and holds
    exactly the lines of the first such member, stripped and put in lower
    case, that are pure a-z. *)
Theorem load_scowl_words_fresh tarball_present urlretrieve tar words :
  load_scowl_words tarball_present urlretrieve tar None = Return words →
  words ≠ ∅ ∧
  ∃ t name,
    tar = inr t ∧
    List.find (λ name, bool_decide (basename name = "english-words.60"))
              (getmembers t) = Some name ∧
    ∀ w, w ∈ words ↔
         is_pure_alpha w = true ∧
         ∃ raw, raw ∈ extractfile t name ∧ lower (strip raw) = w.
Proof.
  unfold load_scowl_words.
  destruct (if tarball_present then None else urlretrieve); [done|].
  destruct tar as [e|t]; [done|].
  destruct (List.find _ (getmembers t)) as [name|] eqn:Hfind; [|done].
  case_decide as Hcount; [done|]. intros Hread.
  apply scowl_read_returns in Hread as [Hne Hwords].
  split; [done|]. exists t, name. split_and!; [done..|].
  intros w. rewrite Hwords. unfold scowl_extract. split.
  - intros (_ & line & Hline & <-).
    apply list_elem_of_fmap in Hline as (v & -> & Hv).
    apply list_elem_of_filter in Hv as [Hpure Hv].
    apply list_elem_of_fmap in Hv as (raw & -> & Hraw).
    rewrite strip_line_pure by done. split; [done|]. by exists raw.
  - intros (Hpure & raw & Hraw & <-).
    split; [by apply is_pure_alpha_nonempty|].
    exists (lower (strip raw) +:+ String (ascii_of_nat 10) "").
    split; [|by apply strip_line_pure].
    apply list_elem_of_fmap. exists (lower (strip raw)). split; [done|].
    apply list_elem_of_filter. split; [done|].
    apply list_elem_of_fmap. by exists raw.
Qed.

Lemma load_scowl_words_fresh_witness :
  ({["cat"]} : gset string) ≠ ∅ ∧
  ∃ t name,
    (inr {| getmembers := ["scowl/README"; "scowl/final/english-words.60"];
            extractfile := λ _, [" Cat "; "it's"] |} : string + TarFile)
      = inr t ∧
    List.find (λ name, bool_decide (basename name = "english-words.60"))
              (getmembers t) = Some name ∧
    ∀ w, w ∈ ({["cat"]} : gset string) ↔
         is_pure_alpha w = true ∧
         ∃ raw, raw ∈ extractfile t name ∧ lower (strip raw) = w.
Proof.
  apply (load_scowl_words_fresh false None
           (inr {| getmembers := ["scowl/README"; "scowl/final/english-words.60"];
                   extractfile := λ _, [" Cat "; "it's"] |})
           {["cat"]}).
  reflexivity.
Defined.

(** X13.  With a previously extracted file, [load_scowl_words] does not
    read the content of the archive and does not test the words: when it
    returns, the set is not empty and holds exactly the non-blank lines
    of that file, stripped, whatever their characters. *)
Theorem load_scowl_words_cached tarball_present urlretrieve tar lines words :
  load_scowl_words tarball_present urlretrieve tar (Some lines) = Return words →
  words ≠ ∅ ∧
  ∀ w, w ∈ words ↔ w ≠ "" ∧ ∃ line, line ∈ lines ∧ strip line = w.
Proof.
  unfold load_scowl_words.
  destruct (if tarball_present then None else urlretrieve); [done|].
  destruct tar as [e|t]; [done|].
  destruct (List.find _ (getmembers t)) as [name|]; [|done].
  apply scowl_read_returns.
Qed.

Lemma load_scowl_words_cached_witness :
  ({["Hello World"]} : gset string) ≠ ∅ ∧
  ∀ w, w ∈ ({["Hello World"]} : gset string) ↔
       w ≠ "" ∧ ∃ line, line ∈ ["Hello World "; ""] ∧ strip line = w.
Proof.
  apply (load_scowl_words_cached true None
           (inr {| getmembers := ["english-words.60"];
                   extractfile := λ _, ["cat"] |})
           ["Hello World "; ""] {["Hello World"]}).
  reflexivity.
Defined.

End scowl_facts.

(** ** The local loaders and the word list *)

Section local_loader_facts.
Implicit Types (lines pre body tail post : list string) (acc : gset string).
Implicit Types (w line head stop : string).
Implicit Types (files : string → option (list string)).

(** X14.  The words of [load_linux_dict_words] are exactly the pure a-z
    tokens [line.strip().lower()] of [/usr/share/dict/words]; there is
    none when the file is missing, and the test for an empty result
    changes nothing. *)
Theorem load_linux_dict_words_elem_of files w :
  w ∈ load_linux_dict_words files ↔
  is_pure_alpha w = true ∧
  ∃ lines line, files linux_dict_path = Some lines ∧
                line ∈ lines ∧ lower (strip line) = w.
Proof.
  unfold load_linux_dict_words.
  destruct (files linux_dict_path) as [lines|].
  - assert (Hset : (if decide (read_pure_alpha lines = ∅) then ∅
                    else read_pure_alpha lines) = read_pure_alpha lines).
    { by case_decide. }
    rewrite Hset, read_pure_alpha_elem_of. split.
    + intros (Hw & line & Hline & Heq). split; [done|]. by exists lines, line.
    + intros (Hw & lines' & line & [= <-] & Hline & Heq). split; [done|].
      by exists line.
  - rewrite elem_of_empty. split; [done|]. by intros (_ & ? & ? & [=] & _).
Qed.

Lemma read_pure_alpha_cons line lines :
  read_pure_alpha (line :: lines) =
  if is_pure_alpha (lower (strip line))
  then {[lower (strip line)]} ∪ read_pure_alpha lines
  else read_pure_alpha lines.
Proof.
  unfold read_pure_alpha. rewrite fmap_cons.
  destruct (is_pure_alpha (lower (strip line))) eqn:Hpure.
  - by rewrite filter_cons_True, list_to_set_cons by done.
  - by rewrite filter_cons_False by (by rewrite Hpure).
Qed.

Lemma moby_read_cons_false line lines acc :
  moby_read false (line :: lines) acc =
  moby_read (String.prefix "1. Standard English Words" (strip line)) lines acc.
Proof. cbn [moby_read negb]. by rewrite strip_rstrip_newlines. Qed.

Lemma moby_read_cons_true line lines acc :
  moby_read true (line :: lines) acc =
  if negb (nonempty (strip line)) then acc
  else if section_header_match (rstrip_newlines line) then acc
  else moby_read true lines
         (if is_pure_alpha (lower (strip line))
          then {[lower (strip line)]} ∪ acc else acc).
Proof.
  cbn [moby_read negb]. rewrite strip_rstrip_newlines.
  destruct (nonempty (strip line)) eqn:Hne; [|done]. cbn [negb].
  destruct (section_header_match _); [done|].
  rewrite nonempty_lower, Hne. done.
Qed.

Lemma moby_read_skip pre lines acc :
  (∀ line, line ∈ pre →
     String.prefix "1. Standard English Words" (strip line) = false) →
  moby_read false (pre ++ lines) acc = moby_read false lines acc.
Proof.
  induction pre as [|line pre IH]; intros Hpre; [done|].
  rewrite <- app_comm_cons, moby_read_cons_false.
  rewrite (Hpre line) by left. apply IH. intros l Hl. apply Hpre. by right.
Qed.

Lemma moby_read_body body tail acc :
  (∀ line, line ∈ body →
     strip line ≠ "" ∧ section_header_match (rstrip_newlines line) = false) →
  tail = [] ∨
  (∃ stop post, tail = stop :: post ∧
     (strip stop = "" ∨ section_header_match (rstrip_newlines stop) = true)) →
  moby_read true (body ++ tail) acc = read_pure_alpha body ∪ acc.
Proof.
  intros Hbody Htail. revert acc Hbody.
  induction body as [|line body IH]; intros acc Hbody.
  - rewrite app_nil_l.
    replace (read_pure_alpha []) with (∅ : gset string) by done.
    rewrite (left_id_L ∅ (∪)).
    destruct Htail as [->|(stop & post & -> & Hstop)]; [done|].
    rewrite moby_read_cons_true. destruct Hstop as [->| ->]; [done|].
    by destruct (negb _).
  - rewrite <- app_comm_cons, moby_read_cons_true.
    destruct (Hbody line) as [Hne ->]; [left|].
    destruct (strip line) as [|c s] eqn:Hstrip; [done|]. cbn [nonempty negb].
    rewrite IH by (intros l Hl; apply Hbody; by right).
    rewrite read_pure_alpha_cons, Hstrip.
    destruct (is_pure_alpha _); [|done].
    by rewrite (comm_L (∪) {[_]} (read_pure_alpha body)), (assoc_L (∪)).
Qed.

(** X15.  What [load_moby_words] reads: after the first line that starts
    (once stripped) with [1. Standard English Words], the lines up to the
    first blank line, the first header of section 2 or the end of the
    file; the lines before and the lines after do not count.  The result
    is the set of the pure a-z tokens of those lines, and an error when
    there is none. *)
Theorem load_moby_words_section files path pre head body tail :
  path ≠ "" →
  files path = Some (pre ++ head :: body ++ tail) →
  (∀ line, line ∈ pre →
     String.prefix "1. Standard English Words" (strip line) = false) →
  String.prefix "1. Standard English Words" (strip head) = true →
  (∀ line, line ∈ body →
     strip line ≠ "" ∧ section_header_match (rstrip_newlines line) = false) →
  tail = [] ∨
  (∃ stop post, tail = stop :: post ∧
     (strip stop = "" ∨ section_header_match (rstrip_newlines stop) = true)) →
  load_moby_words files (Some path) =
  if decide (read_pure_alpha body = ∅) then
    Abort (Raised "Moby loader error: no valid words found in '1. Standard English Words' section")
  else Return (read_pure_alpha body).
Proof.
  intros Hpath Hfile Hpre Hhead Hbody Htail. unfold load_moby_words.
  destruct path as [|c path]; [done|]. rewrite Hfile.
  rewrite moby_read_skip, moby_read_cons_false, Hhead by done.
  rewrite moby_read_body by done. by rewrite (right_id_L ∅ (∪)).
Qed.

Lemma load_moby_words_section_witness :
  load_moby_words
    (λ _, Some ["Moby Word Lists"; "1. Standard English Words"; "Cat"; "it's";
                ""; "dog"])
    (Some "moby.txt") =
  if decide (read_pure_alpha ["Cat"; "it's"] = ∅) then
    Abort (Raised "Moby loader error: no valid words found in '1. Standard English Words' section")
  else Return (read_pure_alpha ["Cat"; "it's"]).
Proof.
  apply (load_moby_words_section _ "moby.txt" ["Moby Word Lists"]
           "1. Standard English Words" ["Cat"; "it's"] [""; "dog"]).
  - discriminate.
  - reflexivity.
  - intros line ->%list_elem_of_singleton. reflexivity.
  - reflexivity.
  - intros line [->| ->%list_elem_of_singleton]%elem_of_cons;
      (split; [discriminate|reflexivity]).
  - right. exists "", ["dog"]. split; [reflexivity|]. left. reflexivity.
Defined.

Lemma moby_read_subseteq start_reading lines acc w :
  w ∈ moby_read start_reading lines acc →
  w ∈ acc ∨
  (w ∈ read_pure_alpha lines ∧
   ∃ line, (line ∈ lines ∧
            String.prefix "1. Standard English Words" (strip line) = true) ∨
           start_reading = true).
Proof.
  revert start_reading acc.
  induction lines as [|line lines IH]; intros b acc; [by left|].
  destruct b.
  - rewrite moby_read_cons_true.
    destruct (negb _); [by left|].
    destruct (section_header_match _); [by left|].
    intros [Hacc|[Hw _]]%IH.
    + destruct (is_pure_alpha _) eqn:Hpure; [|by left].
      apply elem_of_union in Hacc as [->%elem_of_singleton|?]; [|by left].
      right. split; [|by exists line; right].
      rewrite read_pure_alpha_cons, Hpure. apply elem_of_union_l.
      by apply elem_of_singleton.
    + right. split; [|by exists line; right].
      rewrite read_pure_alpha_cons. destruct (is_pure_alpha _); [|done].
      by apply elem_of_union_r.
  - rewrite moby_read_cons_false.
    destruct (String.prefix _ (strip line)) eqn:Hhead.
    + intros [?|[Hw _]]%IH; [by left|]. right. split.
      * rewrite read_pure_alpha_cons. destruct (is_pure_alpha _); [|done].
        by apply elem_of_union_r.
      * exists line. left. split; [left|done].
    + intros [?|[Hw (l & [[Hl Hp]|[=]])]]%IH; [by left|]. right. split.
      * rewrite read_pure_alpha_cons. destruct (is_pure_alpha _); [|done].
        by apply elem_of_union_r.
      * exists l. left. split; [by right|done].
Qed.

(** X16.  When [load_moby_words] is given a file and returns, the file
    exists and has a line that starts the first section, and the set
    returned is not empty and holds only pure a-z tokens
    [line.strip().lower()] of the file. *)
Theorem load_moby_words_returns files path words :
  path ≠ "" →
  load_moby_words files (Some path) = Return words →
  words ≠ ∅ ∧
  ∃ lines, files path = Some lines ∧
    (∃ line, line ∈ lines ∧
       String.prefix "1. Standard English Words" (strip line) = true) ∧
    ∀ w, w ∈ words →
         is_pure_alpha w = true ∧
         ∃ line, line ∈ lines ∧ lower (strip line) = w.
Proof.
  intros Hpath. unfold load_moby_words.
  destruct path as [|c path]; [done|].
  destruct (files _) as [lines|]; [|done].
  case_decide as Hne; [done|]. intros [= <-]. split; [done|].
  exists lines. split; [done|]. split.
  - apply set_choose_L in Hne as [w Hw].
    apply moby_read_subseteq in Hw as [Hw|[_ (l & [[? ?]|[=]])]].
    + by apply elem_of_empty in Hw.
    + by exists l.
  - intros w [Hw|[Hw _]]%moby_read_subseteq.
    + by apply elem_of_empty in Hw.
    + by apply read_pure_alpha_elem_of.
Qed.

Lemma load_moby_words_returns_witness :
  ({["cat"]} : gset string) ≠ ∅ ∧
  ∃ lines, (λ _, Some ["1. Standard English Words"; "Cat"]) "moby.txt"
             = Some lines ∧
    (∃ line, line ∈ lines ∧
       String.prefix "1. Standard English Words" (strip line) = true) ∧
    ∀ w, w ∈ ({["cat"]} : gset string) →
         is_pure_alpha w = true ∧
         ∃ line, line ∈ lines ∧ lower (strip line) = w.
Proof.
  apply (load_moby_words_returns
           (λ _, Some ["1. Standard English Words"; "Cat"]) "moby.txt"
           {["cat"]}).
  - discriminate.
  - reflexivity.
Defined.

Lemma append_newline_inj w v :
  w +:+ String (ascii_of_nat 10) "" = v +:+ String (ascii_of_nat 10) "" →
  w = v.
Proof.
  revert v. induction w as [|a w IH]; intros [|b v]; simpl; [done| | |].
  - intros [= _ Hv]. by destruct v.
  - intros [= _ Hw]. by destruct w.
  - intros [= -> H]. by rewrite (IH v H).
Qed.

Lemma write_word_list_elem_of (V : gset string) line :
  line ∈ write_word_list V ↔
  ∃ w, w ∈ V ∧ line = w +:+ String (ascii_of_nat 10) "".
Proof.
  unfold write_word_list. rewrite list_elem_of_fmap. split.
  - intros (w & -> & Hw). exists w. split; [|done].
    by apply (sorted_spec V).
  - intros (w & Hw & ->). exists w. split; [done|].
    by apply (sorted_spec V).
Qed.

(** X17.  Round trip of the word list: when the vocabulary holds pure a-z
    words only, the lines that [main] writes, read back the way
    [load_omit_words] and [load_linux_dict_words] read a file, give the
    vocabulary again. *)
Theorem read_pure_alpha_write_word_list (V : gset string) :
  (∀ w, w ∈ V → is_pure_alpha w = true) →
  read_pure_alpha (write_word_list V) = V.
Proof.
  intros Hpure. apply set_eq. intros w. rewrite read_pure_alpha_elem_of.
  split.
  - intros (Hw & line & (v & Hv & ->)%write_word_list_elem_of & <-).
    rewrite strip_line_pure by by apply Hpure.
    rewrite is_pure_alpha_lower by by apply Hpure. done.
  - intros Hw. split; [by apply Hpure|].
    exists (w +:+ String (ascii_of_nat 10) ""). split.
    + apply write_word_list_elem_of. by exists w.
    + rewrite strip_line_pure by by apply Hpure.
      by apply is_pure_alpha_lower, Hpure.
Qed.

Lemma read_pure_alpha_write_word_list_witness :
  (∀ w, w ∈ ({["dog"; "cat"]} : gset string) → is_pure_alpha w = true) ∧
  read_pure_alpha (write_word_list {["dog"; "cat"]}) = {["dog"; "cat"]}.
Proof.
  assert (H : ∀ w, w ∈ ({["dog"; "cat"]} : gset string) →
                   is_pure_alpha w = true).
  { intros w [->%elem_of_singleton| ->%elem_of_singleton]%elem_of_union;
      reflexivity. }
  split; [exact H|].
  apply (read_pure_alpha_write_word_list {["dog"; "cat"]} H).
Defined.

End local_loader_facts.

(** ** The compile script as a whole *)

Section main_facts.
Variable pickle_dump : TrieNode → option (list byte).
Implicit Types (i : Inputs) (a : Artifacts) (w : string).
Implicit Types (sources : list (gset string)) (omit_set : gset string).

Lemma pickle_trie_returns root data warned :
  pickle_trie pickle_dump root = Return (data, warned) →
  pickle_dump root = Some data ∧ data ≠ [].
Proof.
  unfold pickle_trie. destruct (pickle_dump root) as [data'|]; [|done].
  destruct (last data') eqn:Hlast; [|done].
  assert (data' ≠ []) by (by intros ->).
  destruct (negb _ || negb _); by intros [= <- <-].
Qed.


Lemma main_build_returns sources omit_set a :
  main_build pickle_dump sources omit_set = Return a →
  ⋃ sources ≠ ∅ ∧
  vocabulary a = ⋃ sources ∖ omit_set ∧
  word_list a = write_word_list (vocabulary a) ∧
  trie a = build_trie (elements (vocabulary a)) ∧
  pickle_dump (trie a) = Some (trie_pickle a) ∧ trie_pickle a ≠ [].
Proof.
  unfold main_build.
  destruct (decide (⋃ sources = ∅)) as [Hempty|Hne].
  - by rewrite aggregate_empty.
  - rewrite aggregate_nonempty by done. cbn.
    destruct (pickle_trie _ _) as [[data warned]|f] eqn:Hpickle; [|done].
    cbn. intros [= <-]. cbn.
    apply pickle_trie_returns in Hpickle as [? ?]. done.
Qed.

Lemma main_returns i a :
  main pickle_dump i = Return a →
  ∃ omit_set d s wn wf m,
    main_omit_set i = Return omit_set ∧
    dwyl i = Return d ∧ scowl i = Return s ∧
    wordnet i = Return wn ∧ wordfreq i = Return wf ∧
    load_moby_words (fs i) (moby_file i) = Return m ∧
    main_build pickle_dump
      [d; s; wn; wf; load_linux_dict_words (fs i); m] omit_set = Return a.
Proof.
  unfold main.
  destruct (main_omit_set i) as [omit_set|]; [|done].
  destruct (dwyl i) as [d|]; [|done].
  destruct (scowl i) as [s|]; [|done].
  destruct (wordnet i) as [wn|]; [|done].
  destruct (wordfreq i) as [wf|]; [|done].
  destruct (load_moby_words _ _) as [m|]; [|done].
  cbn. intros Hbuild. by exists omit_set, d, s, wn, wf, m.
Qed.

Lemma is_in_trie_artifacts sources omit_set a w :
  main_build pickle_dump sources omit_set = Return a →
  is_in_trie (to_py (trie a)) w = bool_decide (w ∈ vocabulary a).
Proof.
  intros (_ & _ & _ & -> & _)%main_build_returns.
  rewrite is_in_trie_build_trie. apply bool_decide_ext, elem_of_elements.
Qed.

Lemma word_list_artifacts sources omit_set a w :
  main_build pickle_dump sources omit_set = Return a →
  (w +:+ String (ascii_of_nat 10) "") ∈ word_list a ↔ w ∈ vocabulary a.
Proof.
  intros (_ & _ & -> & _)%main_build_returns.
  rewrite write_word_list_elem_of. split.
  - by intros (v & Hv & ->%append_newline_inj).
  - intros Hw. by exists w.
Qed.

(** X18.  The two artifacts of a run agree: a string is answered [True]
    by the trie that [main] builds and pickles if and only if the word
    list that [main] writes has the line made of that string and a line
    end. *)
Theorem main_artifacts_agree i a w :
  main pickle_dump i = Return a →
  (is_in_trie (to_py (trie a)) w = true ↔
   (w +:+ String (ascii_of_nat 10) "") ∈ word_list a).
Proof.
  intros (omit_set & d & s & wn & wf & m & _ & _ & _ & _ & _ & _ & Hbuild)
    %main_returns.
  rewrite (is_in_trie_artifacts _ _ _ _ Hbuild), bool_decide_eq_true.
  by rewrite (word_list_artifacts _ _ _ _ Hbuild).
Qed.

(** X19.  What the omit file removes: when [main] returns, no pure a-z
    token [line.strip().lower()] of the omit file is in the vocabulary, in
    the word list or in the trie, whichever sources had it. *)
Theorem main_omits i a omit_path lines line :
  main pickle_dump i = Return a →
  omit_file i = Some omit_path → omit_path ≠ "" →
  fs i omit_path = Some lines →
  line ∈ lines → is_pure_alpha (lower (strip line)) = true →
  (lower (strip line) ∉ vocabulary a) ∧
  ((lower (strip line) +:+ String (ascii_of_nat 10) "") ∉ word_list a) ∧
  is_in_trie (to_py (trie a)) (lower (strip line)) = false.
Proof.
  intros Hmain Homit Hpath Hfile Hline Hpure.
  apply main_returns in Hmain
    as (omit_set & d & s & wn & wf & m & Hset & _ & _ & _ & _ & _ & Hbuild).
  pose proof (is_in_trie_artifacts _ _ _ (lower (strip line)) Hbuild) as Htrie.
  pose proof (word_list_artifacts _ _ _ (lower (strip line)) Hbuild) as Hlist.
  apply main_build_returns in Hbuild as (_ & Hvoc & _).
  unfold main_omit_set in Hset. rewrite Homit in Hset.
  destruct omit_path as [|c p]; [done|].
  unfold load_omit_words in Hset. rewrite Hfile in Hset.
  injection Hset as <-.
  assert (Hnotin : lower (strip line) ∉ vocabulary a).
  { rewrite Hvoc. intros [_ Hno]%elem_of_difference. apply Hno.
    apply read_pure_alpha_elem_of. split; [done|]. by exists line. }
  split; [done|]. split; [by rewrite Hlist|].
  by rewrite Htrie, bool_decide_eq_false_2.
Qed.

(** X20.  A missing omit file ends [main] with [sys.exit(1)] before any
    loader is called: the result does not depend on what the loaders
    would do. *)
Theorem main_omit_file_missing i omit_path :
  omit_file i = Some omit_path → omit_path ≠ "" →
  fs i omit_path = None →
  main pickle_dump i = Abort (SysExit 1).
Proof.
  intros Homit Hpath Hfile. unfold main, main_omit_set.
  rewrite Homit. destruct omit_path as [|c p]; [done|].
  unfold load_omit_words. by rewrite Hfile.
Qed.


Lemma load_dwyl_words_pure tempdir isdir git files words w :
  load_dwyl_words tempdir isdir git files = Return words →
  w ∈ words → is_pure_alpha w = true.
Proof.
  unfold load_dwyl_words. destruct git; [by destruct (negb _)|].
  destruct (files _); [|done]. case_decide; [done|]. intros [= <-].
  by intros [? _]%dwyl_read_elem_of.
Qed.

Lemma load_scowl_words_pure tarball_present urlretrieve tar words w :
  load_scowl_words tarball_present urlretrieve tar None = Return words →
  w ∈ words → is_pure_alpha w = true.
Proof.
  unfold load_scowl_words.
  destruct (if tarball_present then None else urlretrieve); [done|].
  destruct tar as [e|t]; [done|].
  destruct (List.find _ (getmembers t)) as [name|]; [|done].
  case_decide; [done|]. intros [_ Hwords]%scowl_read_returns.
  intros (_ & line & Hline & <-)%Hwords.
  apply list_elem_of_fmap in Hline as (v & -> & Hv).
  apply list_elem_of_filter in Hv as [Hpure _].
  by rewrite strip_line_pure.
Qed.

Lemma load_wordnet_words_pure ensure_loaded download all_synsets words w :
  load_wordnet_words ensure_loaded download all_synsets = Return words →
  w ∈ words → is_pure_alpha w = true.
Proof.
  unfold load_wordnet_words.
  destruct (match ensure_loaded with Loaded => _ | _ => _ end); [done|].
  destruct all_synsets; [done|]. case_decide; [done|]. intros [= <-].
  by intros [? _]%lower_pure_elem_of.
Qed.

Lemma load_wordfreq_words_pure iter_wordlist words w :
  load_wordfreq_words iter_wordlist = Return words →
  w ∈ words → is_pure_alpha w = true.
Proof.
  unfold load_wordfreq_words.
  destruct iter_wordlist; [done|]. case_decide; [done|]. intros [= <-].
  by intros [? _]%lower_pure_elem_of.
Qed.

Lemma load_linux_dict_words_pure files w :
  w ∈ load_linux_dict_words files → is_pure_alpha w = true.
Proof.
  unfold load_linux_dict_words. destruct (files _); [|by intros ?%elem_of_empty].
  case_decide; [by intros ?%elem_of_empty|].
  by intros [? _]%read_pure_alpha_elem_of.
Qed.

Lemma load_moby_words_pure files moby words w :
  load_moby_words files moby = Return words →
  w ∈ words → is_pure_alpha w = true.
Proof.
  unfold load_moby_words.
  destruct moby as [[|c path]|]; try (intros [= <-]; by intros ?%elem_of_empty).
  destruct (files _); [|done]. case_decide; [done|]. intros [= <-].
  intros [?%elem_of_empty|[Hw _]]%moby_read_subseteq; [done|].
  by apply read_pure_alpha_elem_of in Hw as [? _].
Qed.

(** X22.  The canonical form is kept from the loaders to the artifacts:
    in a run where SCOWL is extracted from the archive (no previously
    extracted file), every word of the vocabulary is pure a-z, and so is
    every string that the trie answers [True] for. *)
Theorem main_vocabulary_pure i a tempdir isdir git files
    tarball_present urlretrieve tar ensure_loaded download all_synsets
    iter_wordlist w :
  dwyl i = load_dwyl_words tempdir isdir git files →
  scowl i = load_scowl_words tarball_present urlretrieve tar None →
  wordnet i = load_wordnet_words ensure_loaded download all_synsets →
  wordfreq i = load_wordfreq_words iter_wordlist →
  main pickle_dump i = Return a →
  (w ∈ vocabulary a → is_pure_alpha w = true) ∧
  (is_in_trie (to_py (trie a)) w = true → is_pure_alpha w = true).
Proof.
  intros Hdwyl Hscowl Hwordnet Hwordfreq Hmain.
  apply main_returns in Hmain
    as (omit_set & d & s & wn & wf & m & _ & Hd & Hs & Hwn & Hwf & Hm & Hbuild).
  rewrite (is_in_trie_artifacts _ _ _ w Hbuild), bool_decide_eq_true.
  assert (Hvoc : w ∈ vocabulary a → is_pure_alpha w = true); [|done].
  apply main_build_returns in Hbuild as (_ & -> & _).
  intros [Hw _]%elem_of_difference.
  apply elem_of_union_list in Hw as (X & HX & Hw).
  rewrite Hdwyl in Hd. rewrite Hscowl in Hs.
  rewrite Hwordnet in Hwn. rewrite Hwordfreq in Hwf.
  repeat (apply elem_of_cons in HX as [->|HX]).
  - by apply (load_dwyl_words_pure _ _ _ _ _ _ Hd).
  - by apply (load_scowl_words_pure _ _ _ _ _ Hs).
  - by apply (load_wordnet_words_pure _ _ _ _ _ Hwn).
  - by apply (load_wordfreq_words_pure _ _ _ Hwf).
  - by apply (load_linux_dict_words_pure (fs i)).
  - by apply (load_moby_words_pure _ _ _ _ Hm).
  - by apply elem_of_nil in HX.
Qed.

Lemma read_words_written k (ws : list string) :
  Forall (λ w, is_pure_alpha w = true) ws →
  read_words k ((λ w, w +:+ String (ascii_of_nat 10) "") <$> ws) = (ws, []).
Proof.
  intros Hpure. revert k.
  induction Hpure as [|w ws Hw _ IH]; intros k; [done|].
  rewrite fmap_cons, read_words_cons. cbv zeta.
  rewrite strip_line_pure, is_pure_alpha_lower, IH by done.
  rewrite (is_pure_alpha_isalpha w Hw). by destruct w.
Qed.

(** X23.  The two programs fit together: when the vocabulary of a run is
    pure a-z and not empty, and unpickling gives back the trie that was
    pickled, the validator run on the word list and the trie of that run
    skips no line and reports [True] for every word of the vocabulary,
    and nothing else. *)
Theorem validate_own_word_list (pickle_load : list byte → option PyObject) i a :
  main pickle_dump i = Return a →
  (∀ w, w ∈ vocabulary a → is_pure_alpha w = true) →
  vocabulary a ≠ ∅ →
  pickle_load (trie_pickle a) = Some (to_py (trie a)) →
  ∃ results,
    validate_main pickle_load (Some (trie_pickle a)) (Some (word_list a))
      = Return (results, []) ∧
    ∀ w, results !! w = if decide (w ∈ vocabulary a) then Some true else None.
Proof.
  intros Hmain Hpure Hne Hload.
  apply main_returns in Hmain
    as (omit_set & d & s & wn & wf & m & _ & _ & _ & _ & _ & _ & Hbuild).
  pose proof (λ w, is_in_trie_artifacts _ _ _ w Hbuild) as Htrie.
  apply main_build_returns in Hbuild as (_ & _ & Hlist & _).
  destruct (sorted_spec (vocabulary a)) as (_ & _ & Hsorted).
  assert (Hroot : load_trie pickle_load (Some (trie_pickle a)) =
                  Return (to_py (trie a))).
  { unfold load_trie. rewrite Hload. by destruct (trie a). }
  unfold validate_main. rewrite Hroot, Hlist. cbn.
  unfold write_word_list. rewrite read_words_written.
  2:{ apply Forall_forall. intros w Hw. by apply Hpure, Hsorted. }
  destruct (sorted (vocabulary a)) as [|v vs] eqn:Hvs.
  { apply set_choose_L in Hne as [w Hw]. apply Hsorted in Hw.
    by apply elem_of_nil in Hw. }
  eexists. split; [done|]. intros w. unfold check_words.
  rewrite foldl_check_words_lookup, lookup_empty, Htrie.
  destruct (decide (w ∈ v :: vs)) as [Hin|Hnotin].
  - apply Hsorted in Hin. rewrite decide_True by done.
    by rewrite bool_decide_eq_true_2.
  - rewrite decide_False; [done|]. by intros ?%Hsorted.
Qed.

End main_facts.

Lemma main_artifacts_agree_witness :
  ∃ a,
    main (λ _, Some [x80; x2e])
      {| omit_file := None; moby_file := None; fs := λ _, None;
         dwyl := Return {["cat"]}; scowl := Return {["dog"]};
         wordnet := Return {["cat"]}; wordfreq := Return {["emu"]} |}
      = Return a ∧
    (is_in_trie (to_py (trie a)) "dog" = true ↔
     ("dog" +:+ String (ascii_of_nat 10) "") ∈ word_list a).
Proof.
  eexists. split; [reflexivity|].
  apply (main_artifacts_agree (λ _, Some [x80; x2e])
    {| omit_file := None; moby_file := None; fs := λ _, None;
       dwyl := Return {["cat"]}; scowl := Return {["dog"]};
       wordnet := Return {["cat"]}; wordfreq := Return {["emu"]} |}).
  reflexivity.
Defined.

Lemma main_omits_witness :
  ∃ a,
    main (λ _, Some [x80; x2e])
      {| omit_file := Some "omit.txt"; moby_file := None;
         fs := λ path, if decide (path = "omit.txt") then Some [" Dog "]
                       else None;
         dwyl := Return {["cat"]}; scowl := Return {["dog"]};
         wordnet := Return {["cat"]}; wordfreq := Return {["emu"]} |}
      = Return a ∧
    ("dog" ∉ vocabulary a) ∧
    (("dog" +:+ String (ascii_of_nat 10) "") ∉ word_list a) ∧
    is_in_trie (to_py (trie a)) "dog" = false.
Proof.
  eexists. split; [reflexivity|].
  apply (main_omits (λ _, Some [x80; x2e])
    {| omit_file := Some "omit.txt"; moby_file := None;
       fs := λ path, if decide (path = "omit.txt") then Some [" Dog "]
                     else None;
       dwyl := Return {["cat"]}; scowl := Return {["dog"]};
       wordnet := Return {["cat"]}; wordfreq := Return {["emu"]} |}
    _ "omit.txt" [" Dog "] " Dog ").
  - reflexivity.
  - reflexivity.
  - discriminate.
  - reflexivity.
  - left.
  - reflexivity.
Defined.

Lemma main_omit_file_missing_witness :
  main (λ _, Some [x80; x2e])
    {| omit_file := Some "omit.txt"; moby_file := None; fs := λ _, None;
       dwyl := Return {["cat"]}; scowl := Return {["dog"]};
       wordnet := Return {["cat"]}; wordfreq := Return {["emu"]} |}
  = Abort (SysExit 1).
Proof.
  apply (main_omit_file_missing (λ _, Some [x80; x2e])
    {| omit_file := Some "omit.txt"; moby_file := None; fs := λ _, None;
       dwyl := Return {["cat"]}; scowl := Return {["dog"]};
       wordnet := Return {["cat"]}; wordfreq := Return {["emu"]} |}
    "omit.txt").
  - reflexivity.
  - discriminate.
  - reflexivity.
Defined.

Lemma main_vocabulary_pure_witness :
  ∃ a,
    main (λ _, Some [x80; x2e])
      {| omit_file := None; moby_file := None; fs := λ _, None;
         dwyl := load_dwyl_words "/tmp/w" (λ _, false) None
                   (λ _, Some ["cat"; "Dog"]);
         scowl := load_scowl_words false None
                    (inr {| getmembers := ["final/english-words.60"];
                            extractfile := λ _, ["Emu"; "it's"] |}) None;
         wordnet := load_wordnet_words Loaded None (inr [["Cat"; "true_cat"]]);
         wordfreq := load_wordfreq_words (inr ["The"]) |}
      = Return a ∧
    ("emu" ∈ vocabulary a → is_pure_alpha "emu" = true) ∧
    (is_in_trie (to_py (trie a)) "emu" = true → is_pure_alpha "emu" = true).
Proof.
  eexists. split; [reflexivity|].
  apply (main_vocabulary_pure (λ _, Some [x80; x2e])
    {| omit_file := None; moby_file := None; fs := λ _, None;
       dwyl := load_dwyl_words "/tmp/w" (λ _, false) None
                 (λ _, Some ["cat"; "Dog"]);
       scowl := load_scowl_words false None
                  (inr {| getmembers := ["final/english-words.60"];
                          extractfile := λ _, ["Emu"; "it's"] |}) None;
       wordnet := load_wordnet_words Loaded None (inr [["Cat"; "true_cat"]]);
       wordfreq := load_wordfreq_words (inr ["The"]) |}
    _ "/tmp/w" (λ _, false) None (λ _, Some ["cat"; "Dog"])
    false None
    (inr {| getmembers := ["final/english-words.60"];
            extractfile := λ _, ["Emu"; "it's"] |})
    Loaded None (inr [["Cat"; "true_cat"]]) (inr ["The"]) "emu");
    reflexivity.
Defined.

Lemma validate_own_word_list_witness :
  ∃ a,
    main (λ _, Some [x80; x2e])
      {| omit_file := None; moby_file := None; fs := λ _, None;
         dwyl := Return {["cat"]}; scowl := Return {["dog"]};
         wordnet := Return {["cat"]}; wordfreq := Return {["dog"]} |}
      = Return a ∧
    ∃ results,
      validate_main (λ _, Some (to_py (build_trie ["cat"; "dog"])))
        (Some (trie_pickle a)) (Some (word_list a)) = Return (results, []) ∧
      ∀ w, results !! w = if decide (w ∈ vocabulary a) then Some true else None.
Proof.
  eexists. split; [reflexivity|].
  apply (validate_own_word_list (λ _, Some [x80; x2e])
    (λ _, Some (to_py (build_trie ["cat"; "dog"])))
    {| omit_file := None; moby_file := None; fs := λ _, None;
       dwyl := Return {["cat"]}; scowl := Return {["dog"]};
       wordnet := Return {["cat"]}; wordfreq := Return {["dog"]} |}).
  - reflexivity.
  - cbn [vocabulary]. intros w Hw.
    assert (Hcases : w = "cat" ∨ w = "dog").
    { revert Hw. unfold union_sources, load_linux_dict_words. cbn.
      rewrite !elem_of_union, !elem_of_singleton, elem_of_empty.
      tauto. }
    by destruct Hcases as [-> | ->].
  - cbn [vocabulary]. apply (non_empty_inhabited_L "cat").
    unfold union_sources, load_linux_dict_words. cbn.
    rewrite !elem_of_union, !elem_of_singleton. tauto.
  - reflexivity.
Defined.
